(** * zonal-fim: slope-weighted barycentric weights and cell aggregation

    A shallow embedding of
      - [cfimvis/tools/barrycentric.py]
        ([calculate_slope], [calculate_barycentric_weights],
         [compute_3d_barycentric]) and
      - [cfimvis/code/bary_interpolation.py]
        ([interpolate], [make_depth_raster]).

    The numeric code is written once, over an interface [Float64] of the
    operations numpy and DuckDB apply to a double.  Two instances are given:
      - [binary64], the kernel's IEEE 754 binary64 numbers, on which the
        definitions run ([vm_compute]) as the Python code does;
      - [xreal], exact real arithmetic extended with one non-finite value
        [Undef] that stands for what IEEE arithmetic yields where the exact
        result does not exist (a division by zero, the root of a negative
        number): NaN or an infinity.  It has no rounding, no overflow and
        no underflow: a statement proved on it is a statement in exact
        arithmetic, and is worded so; where the doubles depart from it,
        the departure is shown by a run on [binary64]. *)

From Stdlib Require Import PrimFloat.
From Stdlib Require Uint63.
From Stdlib Require Import Reals Lra Lia ZArith List Bool Sorted.
From stdpp Require Import base gmap.
Import ListNotations.

Set Default Proof Using "Type".

(* ================================================================== *)
(** * The arithmetic interface *)
(* ================================================================== *)

Class Float64 (F : Type) : Type := {
  f_of_Z : Z -> F;             (* an integer literal *)
  fnan : F;                    (* np.nan *)
  fadd : F -> F -> F;
  fsub : F -> F -> F;
  fmul : F -> F -> F;
  fdiv : F -> F -> F;
  fsqrt : F -> F;
  fabs : F -> F;
  feqb : F -> F -> bool;       (* IEEE [==] *)
  fleb : F -> F -> bool;       (* IEEE [<=] *)
  fis_nan : F -> bool
}.

Declare Scope float64_scope.
Delimit Scope float64_scope with f64.
Infix "+" := fadd : float64_scope.
Infix "-" := fsub : float64_scope.
Infix "*" := fmul : float64_scope.
Infix "/" := fdiv : float64_scope.

(** ** IEEE 754 binary64 *)

Definition b64_of_Z (z : Z) : PrimFloat.float :=
  if (z <? 0)%Z
  then PrimFloat.opp (PrimFloat.of_uint63 (Uint63.of_Z (- z)))
  else PrimFloat.of_uint63 (Uint63.of_Z z).

#[export] Instance binary64 : Float64 PrimFloat.float := {|
  f_of_Z := b64_of_Z;
  fnan := PrimFloat.nan;
  fadd := PrimFloat.add;
  fsub := PrimFloat.sub;
  fmul := PrimFloat.mul;
  fdiv := PrimFloat.div;
  fsqrt := PrimFloat.sqrt;
  fabs := PrimFloat.abs;
  feqb := PrimFloat.eqb;
  fleb := PrimFloat.leb;
  fis_nan := PrimFloat.is_nan
|}.

(** ** Exact reals with one non-finite value *)

Inductive xreal : Type :=
  | Fin (r : R)
  | Undef.

Definition xlift2 (op : R -> R -> R) (a b : xreal) : xreal :=
  match a, b with
  | Fin x, Fin y => Fin (op x y)
  | _, _ => Undef
  end.

Definition xdiv (a b : xreal) : xreal :=
  match a, b with
  | Fin x, Fin y => if Req_dec_T y 0 then Undef else Fin (x / y)
  | _, _ => Undef
  end.

Definition xsqrt (a : xreal) : xreal :=
  match a with
  | Fin x => if Rlt_dec x 0 then Undef else Fin (sqrt x)
  | Undef => Undef
  end.

Definition xabs (a : xreal) : xreal :=
  match a with
  | Fin x => Fin (Rabs x)
  | Undef => Undef
  end.

Definition xeqb (a b : xreal) : bool :=
  match a, b with
  | Fin x, Fin y => if Req_dec_T x y then true else false
  | _, _ => false
  end.

Definition xleb (a b : xreal) : bool :=
  match a, b with
  | Fin x, Fin y => if Rle_dec x y then true else false
  | _, _ => false
  end.

Definition xis_nan (a : xreal) : bool :=
  match a with
  | Fin _ => false
  | Undef => true
  end.

#[export] Instance exact : Float64 xreal := {|
  f_of_Z := fun z => Fin (IZR z);
  fnan := Undef;
  fadd := xlift2 Rplus;
  fsub := xlift2 Rminus;
  fmul := xlift2 Rmult;
  fdiv := xdiv;
  fsqrt := xsqrt;
  fabs := xabs;
  feqb := xeqb;
  fleb := xleb;
  fis_nan := xis_nan
|}.

(* ================================================================== *)
(** * barrycentric.py *)
(* ================================================================== *)

(** A numpy array of shape (3,): a point [x, y, z] or a vector. *)
Record vec3 (F : Type) : Type := V3 { vx : F; vy : F; vz : F }.
Arguments V3 {F} _ _ _.
Arguments vx {F} _.
Arguments vy {F} _.
Arguments vz {F} _.

Definition vmap {F G : Type} (f : F -> G) (p : vec3 F) : vec3 G :=
  V3 (f (vx p)) (f (vy p)) (f (vz p)).

Section Barycentric.
Context {F : Type} `{Float64 F}.
Local Open Scope float64_scope.

(** [a - b] and [a + b] on arrays, [w * a] of a scalar and an array. *)
Definition vsub (a b : vec3 F) : vec3 F :=
  V3 (vx a - vx b) (vy a - vy b) (vz a - vz b).
Definition vadd (a b : vec3 F) : vec3 F :=
  V3 (vx a + vx b) (vy a + vy b) (vz a + vz b).
Definition vscale (w : F) (a : vec3 F) : vec3 F :=
  V3 (w * vx a) (w * vy a) (w * vz a).

(** [np.cross] of two 3-vectors. *)
Definition cross (a b : vec3 F) : vec3 F :=
  V3 (vy a * vz b - vz a * vy b)
     (vz a * vx b - vx a * vz b)
     (vx a * vy b - vy a * vx b).

(** [np.linalg.norm]: the root of the sum of the squares, of [v[:2]] and
    of a whole 3-vector. *)
Definition norm2 (v : vec3 F) : F :=
  fsqrt (vx v * vx v + vy v * vy v).
Definition norm3 (v : vec3 F) : F :=
  fsqrt (vx v * vx v + vy v * vy v + vz v * vz v).

(** [abs(dz / distance) if distance != 0 else 0] *)
Definition edge_slope (dz distance : F) : F :=
  if negb (feqb distance (f_of_Z 0)) then fabs (dz / distance)
  else f_of_Z 0.

Definition calculate_slope (vertex other_vertex1 other_vertex2 : vec3 F) : F :=
  let vector1 := vsub other_vertex1 vertex in
  let vector2 := vsub other_vertex2 vertex in
  let dz1 := vz vector1 in
  let dz2 := vz vector2 in
  let distance1 := norm2 vector1 in
  let distance2 := norm2 vector2 in
  let slope1 := edge_slope dz1 distance1 in
  let slope2 := edge_slope dz2 distance2 in
  (slope1 + slope2) / f_of_Z 2.

(** The literal [0.33333333333]. *)
Definition flat_weight : F := f_of_Z 33333333333 / f_of_Z 100000000000.

(** Lines 97-107: the slopes normalised to sum to 1, or the literal in a
    flat region. *)
Definition slope_weights (slope_A slope_B slope_C : F) : F * F * F :=
  let total_slope := slope_A + slope_B + slope_C in
  if feqb total_slope (f_of_Z 0)
  then (flat_weight, flat_weight, flat_weight)
  else (slope_A / total_slope, slope_B / total_slope, slope_C / total_slope).

(** Lines 109-135: the sub-areas around the weighted centroid, over the
    length of the normal, normalised by their sum. *)
Definition area_weights (w : F * F * F) (A_point B_point C_point : vec3 F)
  : F * F * F :=
  let '(w_A, w_B, w_C) := w in
  let centroid :=
    vadd (vadd (vscale w_A A_point) (vscale w_B B_point)) (vscale w_C C_point) in
  let vec_A := vsub centroid A_point in
  let vec_B := vsub centroid B_point in
  let vec_C := vsub centroid C_point in
  let normal := cross (vsub B_point A_point) (vsub C_point A_point) in
  let normal_length := norm3 normal in
  let area_A := norm3 (cross vec_B vec_C) / normal_length in
  let area_B := norm3 (cross vec_C vec_A) / normal_length in
  let area_C := norm3 (cross vec_A vec_B) / normal_length in
  let total_area := area_A + area_B + area_C in
  (area_A / total_area, area_B / total_area, area_C / total_area).

(** [triangle_points] is an array of shape (3, 3): three points. *)
Definition calculate_barycentric_weights
    (triangle_points : vec3 F * vec3 F * vec3 F) : F * F * F :=
  let '(A_point, B_point, C_point) := triangle_points in
  let slope_A := calculate_slope A_point B_point C_point in
  let slope_B := calculate_slope B_point A_point C_point in
  let slope_C := calculate_slope C_point A_point B_point in
  area_weights (slope_weights slope_A slope_B slope_C) A_point B_point C_point.

End Barycentric.

(** Points given by integers, for the examples. *)
Definition pointZ {F : Type} `{Float64 F} (x y z : Z) : vec3 F :=
  V3 (f_of_Z x) (f_of_Z y) (f_of_Z z).

Definition triple_map {A B : Type} (f : A -> B) (t : A * A * A) : B * B * B :=
  let '(a, b, c) := t in (f a, f b, f c).


(** ** The mesh weight pipeline: [compute_3d_barycentric] *)

(** A value of [node_coords_dict]: the columns [long], [lat], [elevation]
    of one node. *)
Record node_coords (F : Type) : Type :=
  NodeCoords { long : F; lat : F; node_elevation : F }.
Arguments NodeCoords {F} _ _ _.
Arguments long {F} _.
Arguments lat {F} _.
Arguments node_elevation {F} _.

(** A row of the element table. *)
Record triangle_row : Type :=
  TriangleRow { pg_id : Z; node_id_1 : Z; node_id_2 : Z; node_id_3 : Z }.

(** The three lists the loop appends to, and what it prints: the identity
    and the node ids of each element it could not resolve. *)
Record weight_lists (F : Type) : Type := WeightLists {
  w_A_list : list (option F);
  w_B_list : list (option F);
  w_C_list : list (option F);
  printed : list (Z * list Z)
}.
Arguments WeightLists {F} _ _ _ _.
Arguments w_A_list {F} _.
Arguments w_B_list {F} _.
Arguments w_C_list {F} _.
Arguments printed {F} _.

Section Pipeline.
Context {F : Type} `{Float64 F}.

(** [list(coord.values())]: the row [long, lat, elevation] of the array. *)
Definition coord_values (coord : node_coords F) : vec3 F :=
  V3 (long coord) (lat coord) (node_elevation coord).

(** The body of the loop over the rows of the element table. *)
Definition process_triangle (node_coords_dict : gmap Z (node_coords F))
    (st : weight_lists F) (row : triangle_row) : weight_lists F :=
  let node_ids := [node_id_1 row; node_id_2 row; node_id_3 row] in
  let node_coords := map (fun node_id => node_coords_dict !! node_id) node_ids in
  match node_coords with
  | [Some c1; Some c2; Some c3] =>
      let triangle_points_dem := (coord_values c1, coord_values c2, coord_values c3) in
      let '(weights0, weights1, weights2) :=
        calculate_barycentric_weights triangle_points_dem in
      WeightLists (w_A_list st ++ [Some weights0])
                  (w_B_list st ++ [Some weights1])
                  (w_C_list st ++ [Some weights2])
                  (printed st)
  | _ =>
      WeightLists (w_A_list st ++ [None])
                  (w_B_list st ++ [None])
                  (w_C_list st ++ [None])
                  (printed st ++ [(pg_id row, node_ids)])
  end.

(** The weights the loop appends for one row: those of its triangle, or
    nothing when a node id is not a key of the dictionary. *)
Definition row_weights (node_coords_dict : gmap Z (node_coords F))
    (row : triangle_row) : option (F * F * F) :=
  match node_coords_dict !! node_id_1 row, node_coords_dict !! node_id_2 row,
        node_coords_dict !! node_id_3 row with
  | Some c1, Some c2, Some c3 =>
      Some (calculate_barycentric_weights
              (coord_values c1, coord_values c2, coord_values c3))
  | _, _, _ => None
  end.

Definition compute_3d_barycentric (node_coords_dict : gmap Z (node_coords F))
    (triangles_df : list triangle_row) : weight_lists F :=
  fold_left (process_triangle node_coords_dict) triangles_df
            (WeightLists [] [] [] []).

End Pipeline.

(* ================================================================== *)
(** * bary_interpolation.py *)
(* ================================================================== *)

(** ** Tables *)

(** [left_join]: every row of the left table, once per matching row of the
    right table, and once with NULLs when nothing matches. *)
Definition left_join {A B C : Type} (on : A -> B -> bool)
    (row : A -> option B -> C) (l : list A) (r : list B) : list C :=
  flat_map (fun a =>
    match List.filter (on a) r with
    | [] => [row a None]
    | bs => map (fun b => row a (Some b)) bs
    end) l.

(** The keys of a [group_by], each once, in the order they first occur. *)
Fixpoint distinct (l : list Z) : list Z :=
  match l with
  | [] => []
  | x :: t => x :: List.filter (fun y => negb (y =? x)%Z) (distinct t)
  end.

(** [first()] of a nullable column over a group. *)
Definition sql_first {A : Type} (l : list (option A)) : option A :=
  match l with
  | [] => None
  | v :: _ => v
  end.

(** [order_by('cell')]: a stable sort on the key. *)
Fixpoint insert_by_cell {A : Type} (x : Z * A) (l : list (Z * A)) : list (Z * A) :=
  match l with
  | [] => [x]
  | y :: t => if (fst x <? fst y)%Z then x :: y :: t else y :: insert_by_cell x t
  end.
Definition order_by_cell {A : Type} (l : list (Z * A)) : list (Z * A) :=
  fold_left (fun acc x => insert_by_cell x acc) l [].

(** The table [coverage_fraction]. *)
Record coverage_row (F : Type) : Type := CoverageRow {
  cf_pg_id : Z;
  cell : Z;
  coverage_fraction : F;
  elevation : F
}.
Arguments CoverageRow {F} _ _ _ _.
Arguments cf_pg_id {F} _.
Arguments cell {F} _.
Arguments coverage_fraction {F} _.
Arguments elevation {F} _.

(** The table [triangle_barycentric], its two selected columns. *)
Record barycentric_row (F : Type) : Type := BarycentricRow {
  tb_pg_id : Z;
  wse_weighted_average : option F
}.
Arguments BarycentricRow {F} _ _.
Arguments tb_pg_id {F} _.
Arguments wse_weighted_average {F} _.

(** A row of [z_w] joined with the water surface elevation of its element
    (NULL when the element has none). *)
Record merged_row (F : Type) : Type := MergedRow {
  m_row : coverage_row F;
  m_wse : option F
}.
Arguments MergedRow {F} _ _.
Arguments m_row {F} _.
Arguments m_wse {F} _.

(** A row per cell: the weighted average, the elevation, the depth. *)
Record cell_row (F : Type) : Type := CellRow {
  c_cell : Z;
  wse_cell_weighted_average : option F;
  c_elevation : option F;
  depth : option F
}.
Arguments CellRow {F} _ _ _ _.
Arguments c_cell {F} _.
Arguments wse_cell_weighted_average {F} _.
Arguments c_elevation {F} _.
Arguments depth {F} _.

(** The two connections [interpolate] opens (lines 47 and 48), on the
    database of the coverage fractions and on the output database.  A
    table expression of ibis keeps, for each table it is built from, the
    connection the table was taken from. *)
Inductive connection : Type :=
  | data_conn
  | out_data_conn.

(** The exceptions that end [interpolate] after the table [depth] is
    written. *)
Inductive interpolate_error : Type :=
  | UnboundLocalError   (* [cell_range_table], bound only under [save_raster] *)
  | IbisError           (* "Multiple backends found for this expression" *)
  | IndexError.         (* an index outside of the array *)

(** What [interpolate] leaves behind: the table [depth], and the array
    written to the raster file or the exception raised before that. *)
Record interpolate_result (F : Type) : Type := InterpolateResult {
  depth_table : list (cell_row F);
  raster_array : interpolate_error + list (list F)
}.
Arguments InterpolateResult {F} _ _.
Arguments depth_table {F} _.
Arguments raster_array {F} _.

Section Interpolation.
Context {F : Type} `{Float64 F}.
Local Open Scope float64_scope.

(** *** SQL arithmetic on nullable doubles *)

Definition null_lift2 (op : F -> F -> F) (a b : option F) : option F :=
  match a, b with
  | Some x, Some y => Some (op x y)
  | _, _ => None
  end.

(** [sum()]: NULLs are skipped, and the sum of no value is NULL. *)
Fixpoint sql_sum_from (acc : option F) (l : list (option F)) : option F :=
  match l with
  | [] => acc
  | None :: t => sql_sum_from acc t
  | Some x :: t =>
      sql_sum_from (Some (match acc with None => x | Some a => a + x end)) t
  end.
Definition sql_sum (l : list (option F)) : option F := sql_sum_from None l.

(** DuckDB orders a NaN above every other double and equal to itself. *)
Definition sql_ge (a b : F) : bool :=
  fis_nan a || (negb (fis_nan b) && fleb b a).

(** *** Lines 58-83: the weighted average per cell *)

Definition join_wse (z_w : list (coverage_row F))
    (merged_polys : list (barycentric_row F)) : list (merged_row F) :=
  left_join (fun r p => (cf_pg_id r =? tb_pg_id p)%Z)
            (fun r p => MergedRow r (p ≫= wse_weighted_average))
            z_w merged_polys.

Definition group (c : Z) (rows : list (merged_row F)) : list (merged_row F) :=
  List.filter (fun r => (cell (m_row r) =? c)%Z) rows.

(** The two aggregates over the group of a cell. *)
Definition weighted_sum (rows : list (merged_row F)) (c : Z) : option F :=
  sql_sum (map (fun r => null_lift2 fmul (m_wse r)
                           (Some (coverage_fraction (m_row r))))
               (group c rows)).
Definition coverage_sum (rows : list (merged_row F)) (c : Z) : option F :=
  sql_sum (map (fun r => Some (coverage_fraction (m_row r))) (group c rows)).

Definition numerator (rows : list (merged_row F)) : list (Z * option F) :=
  map (fun c => (c, weighted_sum rows c))
      (distinct (map (fun r => cell (m_row r)) rows)).

Definition denominator (rows : list (merged_row F)) : list (Z * option F) :=
  map (fun c => (c, coverage_sum rows c))
      (distinct (map (fun r => cell (m_row r)) rows)).

(** The quotient line 78 attaches to every row of a cell. *)
Definition cell_average (rows : list (merged_row F)) (c : Z) : option F :=
  null_lift2 fdiv (weighted_sum rows c) (coverage_sum rows c).

(** The rows with [weighted_sum] and [coverage_sum] joined on, and the
    quotient of the two; what a coverage sum of 0 gives is left to the
    division of the instance. *)
Definition with_average (rows : list (merged_row F)) : list (Z * option F) :=
  let with_sum :=
    left_join (fun r (n : Z * option F) => (cell (m_row r) =? fst n)%Z)
              (fun r n => (r, n ≫= snd))
              rows (numerator rows) in
  let with_sums :=
    left_join (fun (r : merged_row F * option F) (d : Z * option F) =>
                 (cell (m_row (fst r)) =? fst d)%Z)
              (fun r d => (r, d ≫= snd))
              with_sum (denominator rows) in
  map (fun r => (cell (m_row (fst (fst r))),
                 null_lift2 fdiv (snd (fst r)) (snd r)))
      with_sums.

(** [group_by('cell').aggregate(first())] *)
Definition first_per_cell (rows : list (Z * option F)) : list (Z * option F) :=
  map (fun c =>
         (c, sql_first (map snd (List.filter (fun r => (fst r =? c)%Z) rows))))
      (distinct (map fst rows)).

(** *** Lines 85-99: elevation, depth, and the table [depth] *)

Definition z_w_cell (z_w : list (coverage_row F)) : list (Z * option F) :=
  first_per_cell (map (fun r => (cell r, Some (elevation r))) z_w).

(** The elevation [first()] picks for a cell. *)
Definition first_elevation (z_w : list (coverage_row F)) (c : Z) : option F :=
  sql_first (map (fun r => Some (elevation r))
                 (List.filter (fun r => (cell r =? c)%Z) z_w)).

Definition is_defined (v : option F) : bool :=
  match v with
  | Some x => negb (fis_nan x)
  | None => false
  end.

(** Lines 62-83: one row per cell with its weighted average. *)
Definition averaged (z_w : list (coverage_row F))
    (merged_polys : list (barycentric_row F)) : list (Z * option F) :=
  first_per_cell (with_average (join_wse z_w merged_polys)).

(** Lines 91-92: the elevation of the cell joined on. *)
Definition z_w_joined (z_w : list (coverage_row F))
    (merged_polys : list (barycentric_row F)) : list (Z * option F * option F) :=
  left_join (fun (a : Z * option F) (e : Z * option F) => (fst a =? fst e)%Z)
            (fun a e => (fst a, snd a, e ≫= snd))
            (averaged z_w merged_polys) (z_w_cell z_w).

(** [z_w_merged] as it stands after line 93. *)
Definition z_w_merged (z_w : list (coverage_row F))
    (merged_polys : list (barycentric_row F)) : list (Z * option F * option F) :=
  List.filter (fun r => is_defined (snd r)) (z_w_joined z_w merged_polys).

Definition z_w_with_depth (z_w : list (coverage_row F))
    (merged_polys : list (barycentric_row F)) : list (cell_row F) :=
  map (fun r => CellRow (fst (fst r)) (snd (fst r)) (snd r)
                        (null_lift2 fsub (snd (fst r)) (snd r)))
      (z_w_merged z_w merged_polys).

Definition filtered_z_w (z_w : list (coverage_row F))
    (merged_polys : list (barycentric_row F)) : list (cell_row F) :=
  List.filter (fun r => match depth r with
                        | Some d => sql_ge d (f_of_Z 0)
                        | None => false
                        end)
              (z_w_with_depth z_w merged_polys).

(** *** Lines 110-127: the cells the aggregation misses *)

Definition cell_range_table (total_pixels : Z) : list (Z * F) :=
  map (fun i => (Z.of_nat i + 1, f_of_Z 0)%Z) (seq 0 (Z.to_nat total_pixels)).

Definition coalesce (a : option F) (b : F) : F :=
  match a with
  | Some x => x
  | None => b
  end.

Definition z_w_merged_with_missing (total_pixels : Z)
    (merged : list (Z * option F * option F)) : list (Z * F) :=
  order_by_cell
    (left_join (fun (c : Z * F) (m : Z * option F * option F) =>
                  (fst c =? fst (fst m))%Z)
               (fun c m => (fst c, coalesce (m ≫= (fun m => snd (fst m))) (snd c)))
               (cell_range_table total_pixels) merged).

(** *** Lines 129-139: the array *)

(** An index into an axis of length [dim]: numpy counts a negative one
    from the end, and raises outside of [-dim, dim). *)
Definition axis_index (i dim : Z) : option nat :=
  if ((0 <=? i) && (i <? dim))%Z then Some (Z.to_nat i)
  else if ((- dim <=? i) && (i <? 0))%Z then Some (Z.to_nat (i + dim))
  else None.

Definition zeros (height width : Z) : list (list F) :=
  replicate (Z.to_nat height) (replicate (Z.to_nat width) (f_of_Z 0)).

(** [a[r, c] = v] *)
Definition setitem (height width : Z) (a : list (list F)) (r c : Z) (v : F)
  : option (list (list F)) :=
  match axis_index r height, axis_index c width with
  | Some i, Some j => Some (alter (fun line => <[j := v]> line) i a)
  | _, _ => None
  end.

(** The pixel an index pair [(r, c)] stands for. *)
Definition position (height width r c : Z) : option (nat * nat) :=
  match axis_index r height, axis_index c width with
  | Some i, Some j => Some (i, j)
  | _, _ => None
  end.

(** [raster_array[row_indices, col_indices] = values], one assignment
    after the other. *)
Fixpoint assign (height width : Z) (a : list (list F))
    (indices : list (Z * Z * F)) : option (list (list F)) :=
  match indices with
  | [] => Some a
  | (r, c, v) :: t =>
      match setitem height width a r c v with
      | Some a' => assign height width a' t
      | None => None
      end
  end.

(** Lines 135-136: the row and the column of a 1-based, row-major cell
    index, and the cell index of a row and a column. *)
Definition row_of_cell (width cell_index : Z) : Z := (cell_index - 1) / width.
Definition col_of_cell (width cell_index : Z) : Z := (cell_index - 1) mod width.
Definition cell_of (width row col : Z) : Z := row * width + col + 1.

(** [df_complete.index] is the row number, from 0, of each row of the
    frame; the column [cell] is not read. *)
Definition fill_raster (width height : Z) (df_complete : list (Z * F))
  : option (list (list F)) :=
  let cell_indices := map Z.of_nat (seq 0 (length df_complete)) in
  let values := map snd df_complete in
  let row_indices := map (row_of_cell width) cell_indices in
  let col_indices := map (col_of_cell width) cell_indices in
  assign height width (zeros height width)
         (combine (combine row_indices col_indices) values).

(** The index triples of [fill_raster] for values numbered from [s]. *)
Definition indexed (width : Z) (s : nat) (values : list F) : list (Z * Z * F) :=
  combine
    (combine (map (row_of_cell width) (map Z.of_nat (seq s (length values))))
             (map (col_of_cell width) (map Z.of_nat (seq s (length values)))))
    values.

(** *** Line 130: [execute] *)

Definition connection_eqb (a b : connection) : bool :=
  match a, b with
  | data_conn, data_conn => true
  | out_data_conn, out_data_conn => true
  | _, _ => false
  end.

(** The backends of an expression: the connections of its tables, each
    once. *)
Fixpoint find_backends (sources : list connection) : list connection :=
  match sources with
  | [] => []
  | c :: t =>
      c :: List.filter (fun d => negb (connection_eqb d c)) (find_backends t)
  end.

(** [expr.execute()] runs an expression on the backend of its tables, and
    raises when they are of more than one backend.  [frame] is the table
    the expression denotes. *)
Definition execute {A : Type} (sources : list connection) (frame : A)
  : interpolate_error + A :=
  match find_backends sources with
  | _ :: _ :: _ => inl IbisError
  | _ => inr frame
  end.

(** [interpolate]: [width] and [height] are those of the reference raster.
    The table [depth] is created on [out_data_conn] at line 99.  After
    that, [cell_range_table] exists only under [save_raster] and line 114
    reads it either way; under [save_raster] line 130 executes an
    expression built from [z_w], a table of [data_conn] (line 59), from
    [merged_polys], a table of [out_data_conn] (line 58), and from
    [cell_range_table], registered on [data_conn] (line 111). *)
Definition interpolate (z_w : list (coverage_row F))
    (merged_polys : list (barycentric_row F)) (width height : Z)
    (save_raster : bool) : interpolate_result F :=
  let merged := z_w_merged z_w merged_polys in
  let merged_sources := [data_conn; out_data_conn] in
  InterpolateResult
    (filtered_z_w z_w merged_polys)
    (if save_raster
     then
       let cell_range_sources := [data_conn] in
       match execute (cell_range_sources ++ merged_sources)
                     (z_w_merged_with_missing (width * height) merged) with
       | inr df_complete =>
           match fill_raster width height df_complete with
           | Some raster => inr raster
           | None => inl IndexError
           end
       | inl e => inl e
       end
     else inl UnboundLocalError).

(** *** [make_depth_raster] *)

Definition array_map2 (f : F -> F -> F) (a b : list (list F)) : list (list F) :=
  map (fun '(ra, rb) => map (fun '(x, y) => f x y) (combine ra rb)) (combine a b).

Definition shape (a : list (list F)) : list nat := map (@length F) a.

(** Lines 222-231 on one pixel. *)
Definition mask_pixel (nodata_value : option F) (mask_negative : bool)
    (wse dem : F) : F :=
  let difference := wse - dem in
  let difference :=
    match nodata_value with
    | Some nd => if feqb wse nd || feqb dem nd then fnan else difference
    | None => difference
    end in
  if mask_negative && fleb difference (f_of_Z 0) then fnan else difference.

(** [raster1_nodata if raster1_nodata is not None else raster2_nodata] *)
Definition effective_nodata (raster1_nodata raster2_nodata : option F)
  : option F :=
  match raster1_nodata with
  | Some nd => Some nd
  | None => raster2_nodata
  end.

(** [None] stands for the [ValueError] of two rasters whose reference
    systems differ.  [dem_values] is read with [out_shape] the shape of
    [wse_values]. *)
Definition make_depth_raster (same_crs : bool)
    (wse_values dem_values : list (list F))
    (raster1_nodata raster2_nodata : option F) (mask_negative : bool)
  : option (list (list F)) :=
  if negb same_crs then None
  else
    let nodata_value := effective_nodata raster1_nodata raster2_nodata in
    Some (array_map2 (mask_pixel nodata_value mask_negative)
                     wse_values dem_values).

(** [a[i, j]] of an array read back. *)
Definition pixel (a : list (list F)) (i j : nat) : option F :=
  match a !! i with
  | Some line => line !! j
  | None => None
  end.

(** An array of [rows] lines of [columns] entries each. *)
Definition rectangular (rows columns : nat) (a : list (list F)) : Prop :=
  length a = rows /\ Forall (fun line => length line = columns) a.

End Interpolation.




(* ================================================================== *)
(** * The node tables *)
(* ================================================================== *)

(** ** [compute_3d_barycentric], lines 177-178: the table as a dictionary *)

(** A row of the node table as the data frame holds it. *)
Record node_table_row (F : Type) : Type := NodeTableRow {
  nt_node_id : Z;
  nt_long : F;
  nt_lat : F;
  nt_elevation : F
}.
Arguments NodeTableRow {F} _ _ _ _.
Arguments nt_node_id {F} _.
Arguments nt_long {F} _.
Arguments nt_lat {F} _.
Arguments nt_elevation {F} _.

Section NodeTable.
Context {F : Type} `{Float64 F}.

Definition node_entry (r : node_table_row F) : Z * node_coords F :=
  (nt_node_id r, NodeCoords (nt_long r) (nt_lat r) (nt_elevation r)).

(** [set_index('node_id')[['long', 'lat', 'elevation']].to_dict('index')]:
    pandas raises a [ValueError] when the index is not unique. *)
Definition to_dict_index (nodes_df : list (node_table_row F))
  : option (gmap Z (node_coords F)) :=
  if bool_decide (NoDup (map nt_node_id nodes_df))
  then Some (list_to_map (map node_entry nodes_df))
  else None.

(** Lines 177-211: the dictionary, then the loop. *)
Definition compute_3d_barycentric_tables (nodes_df : list (node_table_row F))
    (triangles_df : list triangle_row) : option (weight_lists F) :=
  match to_dict_index nodes_df with
  | Some node_coords_dict =>
      Some (compute_3d_barycentric node_coords_dict triangles_df)
  | None => None
  end.

(** Whether the three node ids of a row are keys of the dictionary. *)
Definition resolves (node_coords_dict : gmap Z (node_coords F))
    (row : triangle_row) : bool :=
  match node_coords_dict !! node_id_1 row, node_coords_dict !! node_id_2 row,
        node_coords_dict !! node_id_3 row with
  | Some _, Some _, Some _ => true
  | _, _, _ => false
  end.

End NodeTable.

(** ** geometry_manipulation.py: [mask_nodes] *)

(** [UNION]: the rows of both selections, each once. *)
Definition sql_union (a b : list Z) : list Z := distinct (a ++ b).

(** The three selections of node ids from [masked_elements]. *)
Definition masked_node_ids (masked_elements : list triangle_row) : list Z :=
  sql_union (sql_union (map node_id_1 masked_elements)
                       (map node_id_2 masked_elements))
            (map node_id_3 masked_elements).

(** [SELECT * FROM table WHERE node_id IN (...)], for a table of any
    columns with its column [node_id]. *)
Definition mask_nodes {A : Type} (node_id : A -> Z) (table : list A)
    (masked_elements : list triangle_row) : list A :=
  List.filter (fun n => List.existsb (Z.eqb (node_id n))
                                     (masked_node_ids masked_elements))
              table.

(** ** geometry_manipulation.py: [add_elevation] *)

(** A row of the node table before the elevation is added. *)
Record node_row (F : Type) : Type := NodeRow {
  n_node_id : Z;
  n_long : F;
  n_lat : F;
  n_wse : option F
}.
Arguments NodeRow {F} _ _ _ _.
Arguments n_node_id {F} _.
Arguments n_long {F} _.
Arguments n_lat {F} _.
Arguments n_wse {F} _.

(** A row of the elevation table. *)
Record elevation_row (F : Type) : Type := ElevationRow {
  e_node_id : Z;
  e_elevation : option F
}.
Arguments ElevationRow {F} _ _.
Arguments e_node_id {F} _.
Arguments e_elevation {F} _.

(** A row of the table [add_elevation] creates. *)
Record node_elevation_row (F : Type) : Type := NodeElevationRow {
  ne_node : node_row F;
  ne_elevation : option F
}.
Arguments NodeElevationRow {F} _ _.
Arguments ne_node {F} _.
Arguments ne_elevation {F} _.

Definition is_not_null {A : Type} (v : option A) : bool :=
  match v with
  | Some _ => true
  | None => false
  end.

(** [SELECT n.node_id, n.long, n.lat, n.wse, e.elevation FROM table AS n
     LEFT JOIN elevation_table AS e ON n.node_id = e.node_id
     WHERE e.elevation IS NOT NULL] *)
Definition add_elevation {F : Type} (table : list (node_row F))
    (elevation_table : list (elevation_row F)) : list (node_elevation_row F) :=
  List.filter (fun r => is_not_null (ne_elevation r))
    (left_join (fun n e => (n_node_id n =? e_node_id e)%Z)
               (fun n e => NodeElevationRow n (e ≫= e_elevation))
               table elevation_table).

(* ================================================================== *)
(** * Exact geometry *)
(* ================================================================== *)

(** The same vector operations on real coordinates, in which the
    statements about the [exact] instance are phrased. *)

Section RealGeometry.
Local Open Scope R_scope.

(** A point with real coordinates, as the [exact] instance sees it. *)
Definition fin3 (p : vec3 R) : vec3 xreal := vmap Fin p.

Definition rsub (a b : vec3 R) : vec3 R :=
  V3 (vx a - vx b) (vy a - vy b) (vz a - vz b).
Definition radd (a b : vec3 R) : vec3 R :=
  V3 (vx a + vx b) (vy a + vy b) (vz a + vz b).
Definition rscale (w : R) (a : vec3 R) : vec3 R :=
  V3 (w * vx a) (w * vy a) (w * vz a).
Definition rcross (a b : vec3 R) : vec3 R :=
  V3 (vy a * vz b - vz a * vy b)
     (vz a * vx b - vx a * vz b)
     (vx a * vy b - vy a * vx b).
Definition rnorm2 (v : vec3 R) : R :=
  sqrt (vx v * vx v + vy v * vy v).
Definition rnorm3 (v : vec3 R) : R :=
  sqrt (vx v * vx v + vy v * vy v + vz v * vz v).

(** The horizontal distance between two points, the magnitude of the
    slope from one to the other (0 over a zero distance), and the mean of
    the two magnitudes at a vertex. *)
Definition horizontal_distance (p q : vec3 R) : R := rnorm2 (rsub q p).
Definition slope_magnitude (p q : vec3 R) : R :=
  if Req_dec_T (horizontal_distance p q) 0 then 0
  else Rabs ((vz q - vz p) / horizontal_distance p q).
Definition mean_slope (vertex neighbor1 neighbor2 : vec3 R) : R :=
  (slope_magnitude vertex neighbor1 + slope_magnitude vertex neighbor2) / 2.

(** The area of a triangle in space: half the length of its normal. *)
Definition triangle_normal (A B C : vec3 R) : vec3 R :=
  rcross (rsub B A) (rsub C A).
Definition triangle_area (A B C : vec3 R) : R :=
  rnorm3 (triangle_normal A B C) / 2.

(** The literal [0.33333333333] as a real number. *)
Definition flat_weight_R : R := 33333333333 / 100000000000.

(** The slope weights of lines 97-107 on real slopes. *)
Definition slope_weights_R (sA sB sC : R) : R * R * R :=
  if Req_dec_T (sA + sB + sC) 0
  then (flat_weight_R, flat_weight_R, flat_weight_R)
  else (sA / (sA + sB + sC), sB / (sA + sB + sC), sC / (sA + sB + sC)).

(** The weighted centroid and the three sub-areas around it, each over
    the length of the normal. *)
Definition weighted_centroid (w : R * R * R) (A B C : vec3 R) : vec3 R :=
  radd (radd (rscale (fst (fst w)) A) (rscale (snd (fst w)) B))
       (rscale (snd w) C).
Definition sub_area (G P Q : vec3 R) (normal_length : R) : R :=
  rnorm3 (rcross (rsub G P) (rsub G Q)) / normal_length.

Definition area_weights_R (w : R * R * R) (A B C : vec3 R) : R * R * R :=
  let G := weighted_centroid w A B C in
  let nl := rnorm3 (triangle_normal A B C) in
  let total := sub_area G B C nl + sub_area G C A nl + sub_area G A B nl in
  (sub_area G B C nl / total, sub_area G C A nl / total,
   sub_area G A B nl / total).

(** The sum of a list of reals. *)
Definition Rsum (l : list R) : R := fold_right Rplus 0 l.

Definition fin_triple (t : R * R * R) : xreal * xreal * xreal :=
  triple_map Fin t.

End RealGeometry.

(** Reorderings of a triple, and the sum of its three entries. *)
Definition swap12 {A : Type} (t : A * A * A) : A * A * A :=
  let '(a, b, c) := t in (b, a, c).
Definition swap23 {A : Type} (t : A * A * A) : A * A * A :=
  let '(a, b, c) := t in (a, c, b).
Definition triple_sum (t : R * R * R) : R :=
  (fst (fst t) + snd (fst t) + snd t)%R.

(** The three slopes of a triangle, and their sum. *)
Definition slopes_R (A B C : vec3 R) : R * R * R :=
  (mean_slope A B C, mean_slope B A C, mean_slope C A B).
Definition total_slope_R (A B C : vec3 R) : R := triple_sum (slopes_R A B C).

(* ================================================================== *)
(** * Concrete inputs *)
(* ================================================================== *)

Section Inputs.
Context {F : Type} `{Float64 F}.

(** A right triangle on sloping ground. *)
Definition sloped_triangle : vec3 F * vec3 F * vec3 F :=
  (pointZ 0 0 0, pointZ 1 0 0, pointZ 0 1 10).

(** A right triangle on flat ground. *)
Definition flat_triangle : vec3 F * vec3 F * vec3 F :=
  (pointZ 0 0 0, pointZ 1 0 0, pointZ 0 1 0).

(** Three points on one rising line. *)
Definition collinear_triangle : vec3 F * vec3 F * vec3 F :=
  (pointZ 0 0 0, pointZ 1 0 1, pointZ 2 0 2).

(** A mesh of three nodes and three elements, the second of which refers
    to a node that does not exist. *)
Definition mesh_nodes : gmap Z (node_coords F) :=
  <[1%Z := NodeCoords (f_of_Z 0) (f_of_Z 0) (f_of_Z 0)]>
    (<[2%Z := NodeCoords (f_of_Z 1) (f_of_Z 0) (f_of_Z 0)]>
       (<[3%Z := NodeCoords (f_of_Z 0) (f_of_Z 1) (f_of_Z 10)]> ∅)).
Definition mesh_elements : list triangle_row :=
  [TriangleRow 10 1 2 3; TriangleRow 11 1 2 99; TriangleRow 12 3 2 1].

(** Three coverage rows: cell 1 under element 7 alone, cell 2 shared in
    halves by elements 8 and 9, whose rows carry different elevations. *)
Definition coverage_table : list (coverage_row F) :=
  [CoverageRow 7 1 (f_of_Z 1) (f_of_Z 3);
   CoverageRow 8 2 (fdiv (f_of_Z 1) (f_of_Z 2)) (f_of_Z 4);
   CoverageRow 9 2 (fdiv (f_of_Z 1) (f_of_Z 2)) (f_of_Z 6)].
Definition element_table : list (barycentric_row F) :=
  [BarycentricRow 7 (Some (f_of_Z 5));
   BarycentricRow 8 (Some (f_of_Z 10));
   BarycentricRow 9 (Some (f_of_Z 20))].

(** A grid of two rows and two columns, every cell under an element of
    its own: water surface elevations 10, 20, 30, 40 over ground at 0. *)
Definition grid_coverage : list (coverage_row F) :=
  [CoverageRow 101 1 (f_of_Z 1) (f_of_Z 0);
   CoverageRow 102 2 (f_of_Z 1) (f_of_Z 0);
   CoverageRow 103 3 (f_of_Z 1) (f_of_Z 0);
   CoverageRow 104 4 (f_of_Z 1) (f_of_Z 0)].
Definition grid_elements : list (barycentric_row F) :=
  [BarycentricRow 101 (Some (f_of_Z 10));
   BarycentricRow 102 (Some (f_of_Z 20));
   BarycentricRow 103 (Some (f_of_Z 30));
   BarycentricRow 104 (Some (f_of_Z 40))].

(** Two rasters of two rows and two columns. *)
Definition wse_raster : list (list F) :=
  [[f_of_Z 5; f_of_Z 0]; [f_of_Z 0; f_of_Z 7]].
Definition dem_raster : list (list F) :=
  [[f_of_Z 3; f_of_Z 2]; [f_of_Z 0; f_of_Z 9]].

(** A node table of four nodes, of which the elements below use three. *)
Definition node_table : list (node_table_row F) :=
  [NodeTableRow 1 (f_of_Z 0) (f_of_Z 0) (f_of_Z 0);
   NodeTableRow 2 (f_of_Z 1) (f_of_Z 0) (f_of_Z 0);
   NodeTableRow 3 (f_of_Z 0) (f_of_Z 1) (f_of_Z 10);
   NodeTableRow 4 (f_of_Z 5) (f_of_Z 5) (f_of_Z 1)].
Definition masked_elements_table : list triangle_row :=
  [TriangleRow 10 1 2 3; TriangleRow 12 3 2 1].

(** Nodes with their water surface elevation, and the elevations sampled
    for them: none for node 2, no row for node 3. *)
Definition wse_node_table : list (node_row F) :=
  [NodeRow 1 (f_of_Z 0) (f_of_Z 0) (Some (f_of_Z 5));
   NodeRow 2 (f_of_Z 1) (f_of_Z 0) None;
   NodeRow 3 (f_of_Z 0) (f_of_Z 1) (Some (f_of_Z 7))].
Definition sampled_elevations : list (elevation_row F) :=
  [ElevationRow 1 (Some (f_of_Z 3)); ElevationRow 2 None].

End Inputs.

(** The same tables over the exact reals. *)
Definition coverage_table_exact : list (coverage_row xreal) :=
  [CoverageRow 7 1 (Fin 1) (Fin 3);
   CoverageRow 8 2 (Fin (1 / 2)) (Fin 4);
   CoverageRow 9 2 (Fin (1 / 2)) (Fin 6)].
Definition element_table_exact : list (barycentric_row xreal) :=
  [BarycentricRow 7 (Some (Fin 5));
   BarycentricRow 8 (Some (Fin 10));
   BarycentricRow 9 (Some (Fin 20))].

(** The element table without element 9: half of cell 2 lies under an
    element that has no water surface elevation. *)
Definition element_table_partial_exact : list (barycentric_row xreal) :=
  [BarycentricRow 7 (Some (Fin 5));
   BarycentricRow 8 (Some (Fin 10))].

(** Ground of two rows and two columns, below the datum in one pixel. *)
Definition dem_below_datum : list (list xreal) :=
  [[Fin 3; Fin (-2)]; [Fin 1; Fin 1]].

(** Inputs on which the doubles depart from exact arithmetic: right
    triangles with legs of 2^600 and of 2^-600, whose squares overflow and
    underflow, *)
Definition huge_triangle : vec3 float * vec3 float * vec3 float :=
  (V3 0%float 0%float 0%float,
   V3 0x1p+600%float 0%float 0%float,
   V3 0%float 0x1p+600%float 0x1p+600%float).
Definition tiny_triangle : vec3 float * vec3 float * vec3 float :=
  (V3 0%float 0%float 0%float,
   V3 0x1p-600%float 0%float 0%float,
   V3 0%float 0x1p-600%float 0%float).

(** a cell under two elements with water at 1.1 and 2.3 and equal
    fractions 0.3 (the doubles next to these decimals), *)
Definition rounding_coverage : list (coverage_row float) :=
  [CoverageRow 8 1 0x1.3333333333333p-2%float 0%float;
   CoverageRow 9 1 0x1.3333333333333p-2%float 0%float].
Definition rounding_elements : list (barycentric_row float) :=
  [BarycentricRow 8 (Some 0x1.199999999999ap+0%float);
   BarycentricRow 9 (Some 0x1.2666666666666p+1%float)].

(** and a cell under two elements with water at 0.5 and equal fractions
    2^-1074, the least positive double. *)
Definition underflow_coverage : list (coverage_row float) :=
  [CoverageRow 8 1 0x1p-1074%float 0%float;
   CoverageRow 9 1 0x1p-1074%float 0%float].
Definition underflow_elements : list (barycentric_row float) :=
  [BarycentricRow 8 (Some 0x1p-1%float);
   BarycentricRow 9 (Some 0x1p-1%float)].

(** A cell over ground at 3 under an element whose water surface
    elevation is NaN, as the weights of a collinear element make it. *)
Definition nan_coverage : list (coverage_row float) :=
  [CoverageRow 7 1 1%float 3%float].
Definition nan_elements : list (barycentric_row float) :=
  [BarycentricRow 7 (Some nan)].
(* ================================================================== *)
(** * Tables: joins, groups and order *)
(* ================================================================== *)

Section TableFacts.

Lemma distinct_In (x : Z) (l : list Z) : In x (distinct l) <-> In x l.
Proof.
  induction l as [|y t IH]; simpl; [tauto|].
  rewrite List.filter_In, IH, negb_true_iff, Z.eqb_neq.
  destruct (Z.eq_dec x y) as [->|Hne]; [tauto|].
  split; [intros [Hy|[Ht _]]; auto | intros [Hy|Ht]; auto].
Qed.

Lemma distinct_NoDup (l : list Z) : List.NoDup (distinct l).
Proof.
  induction l as [|y t IH]; simpl; constructor.
  - rewrite List.filter_In, negb_true_iff, Z.eqb_neq. intros [_ Hne]. now apply Hne.
  - now apply List.NoDup_filter.
Qed.

(** Among rows with distinct keys at most one matches a key: the one
    [find] returns. *)
Lemma filter_unique_key {B : Type} (kb : B -> Z) (k : Z) (r : list B) :
  List.NoDup (map kb r) ->
  List.filter (fun b => (k =? kb b)%Z) r =
  match List.find (fun b => (k =? kb b)%Z) r with
  | Some b => [b]
  | None => []
  end.
Proof.
  induction r as [|b t IH]; simpl; [reflexivity|].
  intros Hnd. inversion Hnd as [|? ? Hnotin Hnd']; subst.
  destruct (Z.eqb_spec k (kb b)) as [->|Hne]; [|now apply IH].
  f_equal. rewrite IH by assumption.
  destruct (List.find _ t) as [b'|] eqn:Hfind; [|reflexivity].
  apply List.find_some in Hfind as [Hin Heq].
  apply Z.eqb_eq in Heq. exfalso. apply Hnotin.
  rewrite Heq. now apply List.in_map.
Qed.

Lemma left_join_unique {A B C : Type} (ka : A -> Z) (kb : B -> Z)
    (row : A -> option B -> C) (l : list A) (r : list B) :
  List.NoDup (map kb r) ->
  left_join (fun a b => (ka a =? kb b)%Z) row l r =
  map (fun a => row a (List.find (fun b => (ka a =? kb b)%Z) r)) l.
Proof.
  intros Hnd. unfold left_join.
  induction l as [|a t IH]; [reflexivity|].
  change (flat_map ?f (a :: t)) with (f a ++ flat_map f t).
  change (map ?g (a :: t)) with (g a :: map g t).
  rewrite IH, (filter_unique_key kb (ka a) r Hnd).
  destruct (List.find (fun b => (ka a =? kb b)%Z) r); reflexivity.
Qed.

(** A table computed per key: looking a key up gives its value. *)
Lemma find_keyed {V : Type} (g : Z -> V) (k : Z) (ks : list Z) :
  List.find (fun p : Z * V => (k =? fst p)%Z) (map (fun c => (c, g c)) ks) =
  if List.existsb (Z.eqb k) ks then Some (k, g k) else None.
Proof.
  induction ks as [|c t IH]; simpl; [reflexivity|].
  destruct (Z.eqb_spec k c) as [->|Hne]; simpl; [reflexivity|apply IH].
Qed.

Lemma existsb_In (k : Z) (ks : list Z) :
  In k ks -> List.existsb (Z.eqb k) ks = true.
Proof.
  intros Hin. apply List.existsb_exists. exists k. split; [assumption|apply Z.eqb_refl].
Qed.

Lemma keyed_keys {V : Type} (g : Z -> V) (ks : list Z) :
  map fst (map (fun c => (c, g c)) ks) = ks.
Proof.
  rewrite List.map_map. simpl. apply List.map_id.
Qed.

(** [order_by] leaves a table alone whose keys already increase. *)
Lemma insert_by_cell_last {A : Type} (x : Z * A) (l : list (Z * A)) :
  Forall (fun y => (fst y <= fst x)%Z) l -> insert_by_cell x l = l ++ [x].
Proof.
  induction 1 as [|y t Hy _ IH]; simpl; [reflexivity|].
  destruct (Z.ltb_spec (fst x) (fst y)); [lia|]. now rewrite IH.
Qed.

Lemma order_by_cell_sorted_from {A : Type} (l acc : list (Z * A)) :
  StronglySorted (fun a b => (fst a <= fst b)%Z) (acc ++ l) ->
  fold_left (fun acc x => insert_by_cell x acc) l acc = acc ++ l.
Proof.
  revert acc. induction l as [|x t IH]; intros acc Hs; simpl.
  - now rewrite List.app_nil_r.
  - rewrite insert_by_cell_last.
    + rewrite IH; rewrite <- List.app_assoc; [reflexivity|exact Hs].
    + clear IH. induction acc as [|a acc' IHa]; [constructor|].
      simpl in Hs. inversion Hs as [|? ? Hs' Hall]; subst.
      constructor.
      * rewrite List.Forall_forall in Hall. apply Hall.
        apply List.in_or_app. right. now left.
      * now apply IHa.
Qed.

Lemma order_by_cell_sorted {A : Type} (l : list (Z * A)) :
  StronglySorted (fun a b => (fst a <= fst b)%Z) l ->
  order_by_cell l = l.
Proof.
  intros Hs. unfold order_by_cell. now rewrite order_by_cell_sorted_from.
Qed.

Lemma find_unique_key {B : Type} (kb : B -> Z) (k : Z) (r : list B) (b : B) :
  List.NoDup (map kb r) -> In b r -> kb b = k ->
  List.find (fun b => (k =? kb b)%Z) r = Some b.
Proof.
  induction r as [|x t IH]; simpl; [tauto|].
  intros Hnd [->|Hin] Hk.
  - subst k. now rewrite Z.eqb_refl.
  - inversion Hnd as [|? ? Hnotin Hnd']; subst.
    destruct (Z.eqb_spec (kb b) (kb x)) as [Heq|Hne]; [|now apply IH].
    exfalso. apply Hnotin. rewrite <- Heq. now apply List.in_map.
Qed.

Lemma find_absent_key {B : Type} (kb : B -> Z) (k : Z) (r : list B) :
  (forall b, In b r -> kb b <> k) ->
  List.find (fun b => (k =? kb b)%Z) r = None.
Proof.
  intros Habs. destruct (List.find _ r) as [b|] eqn:Hf; [|reflexivity].
  apply List.find_some in Hf as [Hin Heq]. apply Z.eqb_eq in Heq.
  exfalso. now apply (Habs b Hin).
Qed.

Lemma cells_sorted {A : Type} (g : nat -> A) (s n : nat) :
  StronglySorted (fun a b : Z * A => (fst a <= fst b)%Z)
                 (map (fun i => ((Z.of_nat i + 1)%Z, g i)) (seq s n)).
Proof.
  revert s. induction n as [|n IH]; intros s; cbn; constructor.
  - apply IH.
  - apply List.Forall_forall. intros [c x] Hin.
    apply List.in_map_iff in Hin as (i & [= <- <-] & Hi).
    apply List.in_seq in Hi. cbn. lia.
Qed.

(** ** Arrays *)

Lemma lookup_map {A B : Type} (f : A -> B) (l : list A) (i : nat) :
  map f l !! i = option_map f (l !! i).
Proof.
  revert i. induction l as [|x t IH]; intros [|i]; simpl; auto.
Qed.

Lemma lookup_combine {A B : Type} (l1 : list A) (l2 : list B) (i : nat)
    (x : A) (y : B) :
  l1 !! i = Some x -> l2 !! i = Some y -> combine l1 l2 !! i = Some (x, y).
Proof.
  revert l2 i. induction l1 as [|a t IH]; intros [|b t2] [|i]; simpl;
    try discriminate.
  - now intros [= ->] [= ->].
  - apply IH.
Qed.

End TableFacts.

Section ArrayFacts.
Context {F : Type} `{Float64 F}.

Lemma array_map2_shape (f : F -> F -> F) (a b : list (list F)) :
  shape b = shape a -> shape (array_map2 f a b) = shape a.
Proof.
  unfold shape, array_map2. revert b.
  induction a as [|ra ta IH]; intros [|rb tb]; simpl; try discriminate; auto.
  intros [= Hlen Hrest]. f_equal; [|now apply IH].
  rewrite List.length_map, List.length_combine, Hlen. apply Nat.min_id.
Qed.

Lemma array_map2_pixel (f : F -> F -> F) (a b : list (list F)) (i j : nat)
    (x y : F) :
  pixel a i j = Some x -> pixel b i j = Some y ->
  pixel (array_map2 f a b) i j = Some (f x y).
Proof.
  unfold pixel, array_map2. intros Ha Hb.
  destruct (a !! i) as [ra|] eqn:Hra; [|discriminate].
  destruct (b !! i) as [rb|] eqn:Hrb; [|discriminate].
  rewrite lookup_map, (lookup_combine a b i ra rb Hra Hrb). cbn.
  now rewrite lookup_map, (lookup_combine ra rb j x y Ha Hb).
Qed.

End ArrayFacts.

(* ================================================================== *)
(** * The aggregation, stage by stage *)
(* ================================================================== *)

Section AggregationFacts.
Context {F : Type} `{Float64 F}.

Lemma with_average_eq (rows : list (merged_row F)) :
  with_average rows =
  map (fun r => (cell (m_row r), cell_average rows (cell (m_row r)))) rows.
Proof.
  unfold with_average, numerator, denominator.
  rewrite (left_join_unique (fun r : merged_row F => cell (m_row r)) fst)
    by (rewrite keyed_keys; apply distinct_NoDup).
  rewrite (left_join_unique
             (fun r : merged_row F * option F => cell (m_row (fst r))) fst)
    by (rewrite keyed_keys; apply distinct_NoDup).
  rewrite !List.map_map. apply List.map_ext_in. intros r Hr. cbn [fst snd].
  assert (Hin : In (cell (m_row r)) (distinct (map (fun r => cell (m_row r)) rows))).
  { apply distinct_In. now apply (List.in_map (fun r => cell (m_row r))). }
  rewrite !find_keyed, (existsb_In _ _ Hin). reflexivity.
Qed.

Lemma sql_first_keyed {A : Type} (key : A -> Z) (g : Z -> option F)
    (c : Z) (rows : list A) :
  In c (map key rows) ->
  sql_first (map snd (List.filter (fun p : Z * option F => (fst p =? c)%Z)
                        (map (fun r => (key r, g (key r))) rows))) = g c.
Proof.
  induction rows as [|r t IH]; simpl; [tauto|].
  destruct (Z.eqb_spec (key r) c) as [->|Hne]; [reflexivity|].
  intros [Heq|Hin]; [contradiction|now apply IH].
Qed.

Lemma first_per_cell_keyed {A : Type} (key : A -> Z) (g : Z -> option F)
    (rows : list A) :
  first_per_cell (map (fun r => (key r, g (key r))) rows) =
  map (fun c => (c, g c)) (distinct (map key rows)).
Proof.
  unfold first_per_cell. rewrite List.map_map. cbn [fst].
  apply List.map_ext_in. intros c Hc. f_equal.
  apply sql_first_keyed. now apply distinct_In.
Qed.

Lemma averaged_eq (z_w : list (coverage_row F))
    (merged_polys : list (barycentric_row F)) :
  averaged z_w merged_polys =
  map (fun c => (c, cell_average (join_wse z_w merged_polys) c))
      (distinct (map (fun r => cell (m_row r)) (join_wse z_w merged_polys))).
Proof.
  unfold averaged. rewrite with_average_eq.
  apply (first_per_cell_keyed (fun r : merged_row F => cell (m_row r))).
Qed.

Lemma filter_cell_map (c : Z) (z_w : list (coverage_row F)) :
  map snd (List.filter (fun p : Z * option F => (fst p =? c)%Z)
             (map (fun r => (cell r, Some (elevation r))) z_w)) =
  map (fun r => Some (elevation r))
      (List.filter (fun r => (cell r =? c)%Z) z_w).
Proof.
  induction z_w as [|r t IH]; simpl; [reflexivity|].
  destruct (cell r =? c)%Z; simpl; now rewrite IH.
Qed.

Lemma z_w_cell_eq (z_w : list (coverage_row F)) :
  z_w_cell z_w =
  map (fun c => (c, first_elevation z_w c)) (distinct (map cell z_w)).
Proof.
  unfold z_w_cell, first_per_cell, first_elevation.
  rewrite List.map_map. cbn [fst].
  apply List.map_ext. intros c. now rewrite filter_cell_map.
Qed.

(** The join with the element table keeps the cells of [z_w]. *)
Lemma join_wse_cells (z_w : list (coverage_row F))
    (merged_polys : list (barycentric_row F)) (c : Z) :
  In c (map (fun r => cell (m_row r)) (join_wse z_w merged_polys)) <->
  In c (map cell z_w).
Proof.
  unfold join_wse, left_join.
  rewrite !List.in_map_iff. split.
  - intros (m & <- & Hm). apply List.in_flat_map in Hm as (r & Hr & Hm).
    exists r. split; [|assumption].
    destruct (List.filter _ merged_polys) as [|p ps].
    + destruct Hm as [<-|[]]. reflexivity.
    + apply List.in_map_iff in Hm as (p' & <- & _). reflexivity.
  - intros (r & <- & Hr).
    destruct (List.filter (fun p => (cf_pg_id r =? tb_pg_id p)%Z) merged_polys)
      as [|p ps] eqn:Hf.
    + exists (MergedRow r (None ≫= wse_weighted_average)). split; [reflexivity|].
      apply List.in_flat_map. exists r. split; [assumption|].
      rewrite Hf. now left.
    + exists (MergedRow r (Some p ≫= wse_weighted_average)). split; [reflexivity|].
      apply List.in_flat_map. exists r. split; [assumption|].
      rewrite Hf. now left.
Qed.

Lemma z_w_joined_eq (z_w : list (coverage_row F))
    (merged_polys : list (barycentric_row F)) :
  z_w_joined z_w merged_polys =
  map (fun c => (c, cell_average (join_wse z_w merged_polys) c,
                 first_elevation z_w c))
      (distinct (map (fun r => cell (m_row r)) (join_wse z_w merged_polys))).
Proof.
  unfold z_w_joined. rewrite averaged_eq, z_w_cell_eq.
  rewrite (left_join_unique (fun a : Z * option F => fst a) fst)
    by (rewrite keyed_keys; apply distinct_NoDup).
  rewrite List.map_map. apply List.map_ext_in. intros c Hc. cbn [fst snd].
  rewrite find_keyed, existsb_In; [reflexivity|].
  apply distinct_In, (join_wse_cells z_w merged_polys), distinct_In, Hc.
Qed.

Lemma z_w_joined_keys (z_w : list (coverage_row F))
    (merged_polys : list (barycentric_row F)) :
  List.NoDup (map (fun m => fst (fst m)) (z_w_joined z_w merged_polys)).
Proof.
  rewrite z_w_joined_eq, List.map_map. cbn [fst].
  rewrite List.map_id. apply distinct_NoDup.
Qed.

Lemma averaged_In (z_w : list (coverage_row F))
    (merged_polys : list (barycentric_row F)) (c : Z) (v : option F) :
  In (c, v) (averaged z_w merged_polys) <->
  In c (map cell z_w) /\ v = cell_average (join_wse z_w merged_polys) c.
Proof.
  rewrite averaged_eq, List.in_map_iff. split.
  - intros (c' & Heq & Hin). inversion Heq; subst.
    split; [|reflexivity]. now apply (join_wse_cells z_w merged_polys), distinct_In.
  - intros (Hin & ->). exists c. split; [reflexivity|].
    now apply distinct_In, (join_wse_cells z_w merged_polys).
Qed.

Lemma z_w_joined_In (z_w : list (coverage_row F))
    (merged_polys : list (barycentric_row F)) (c : Z) (w e : option F) :
  In (c, w, e) (z_w_joined z_w merged_polys) <->
  In c (map cell z_w)
  /\ w = cell_average (join_wse z_w merged_polys) c
  /\ e = first_elevation z_w c.
Proof.
  rewrite z_w_joined_eq, List.in_map_iff. split.
  - intros (c' & Heq & Hin). inversion Heq; subst.
    repeat split. now apply (join_wse_cells z_w merged_polys), distinct_In.
  - intros (Hin & -> & ->). exists c. split; [reflexivity|].
    now apply distinct_In, (join_wse_cells z_w merged_polys).
Qed.

Lemma z_w_merged_In (z_w : list (coverage_row F))
    (merged_polys : list (barycentric_row F)) (c : Z) (w e : option F) :
  In (c, w, e) (z_w_merged z_w merged_polys) <->
  In (c, w, e) (z_w_joined z_w merged_polys) /\ is_defined e = true.
Proof.
  unfold z_w_merged. rewrite List.filter_In. reflexivity.
Qed.

Lemma z_w_merged_keys (z_w : list (coverage_row F))
    (merged_polys : list (barycentric_row F)) :
  List.NoDup (map (fun m => fst (fst m)) (z_w_merged z_w merged_polys)).
Proof.
  unfold z_w_merged.
  pose proof (z_w_joined_keys z_w merged_polys) as Hnd.
  induction (z_w_joined z_w merged_polys) as [|m t IH]; simpl; [constructor|].
  inversion Hnd as [|? ? Hnotin Hnd']; subst.
  destruct (is_defined (snd m)); [|now apply IH].
  simpl. constructor; [|now apply IH].
  intros Hin. apply Hnotin.
  apply List.in_map_iff in Hin as (m' & Heq & Hin).
  apply List.filter_In in Hin as [Hin _].
  rewrite <- Heq. now apply (List.in_map (fun m => fst (fst m))).
Qed.

(** The first row of a cell that has rows. *)
Lemma first_elevation_some (z_w : list (coverage_row F)) (c : Z) :
  In c (map cell z_w) ->
  exists row rest,
    List.filter (fun r => (cell r =? c)%Z) z_w = row :: rest
    /\ first_elevation z_w c = Some (elevation row).
Proof.
  intros Hin. unfold first_elevation.
  destruct (List.filter (fun r => (cell r =? c)%Z) z_w) as [|row rest] eqn:Hf.
  - exfalso. apply List.in_map_iff in Hin as (r & Hc & Hr).
    assert (Hin' : In r (List.filter (fun r => (cell r =? c)%Z) z_w)).
    { apply List.filter_In. split; [assumption|]. now apply Z.eqb_eq. }
    rewrite Hf in Hin'. destruct Hin'.
  - exists row, rest. split; reflexivity.
Qed.

Lemma z_w_with_depth_In (z_w : list (coverage_row F))
    (merged_polys : list (barycentric_row F)) (r : cell_row F) :
  In r (z_w_with_depth z_w merged_polys) <->
  exists (c : Z) (w e : option F),
    In (c, w, e) (z_w_joined z_w merged_polys)
    /\ is_defined e = true
    /\ r = CellRow c w e (null_lift2 fsub w e).
Proof.
  unfold z_w_with_depth. rewrite List.in_map_iff. split.
  - intros ([[c w] e] & <- & Hin). apply z_w_merged_In in Hin as [Hin Hdef].
    exists c, w, e. auto.
  - intros (c & w & e & Hin & Hdef & ->). exists (c, w, e).
    split; [reflexivity|]. now apply z_w_merged_In.
Qed.

End AggregationFacts.

(* ================================================================== *)
(** * Writing the array *)
(* ================================================================== *)

Section RasterFacts.
Context {F : Type} `{Float64 F}.
Local Open Scope Z_scope.

Lemma axis_index_range (i dim : Z) (k : nat) :
  axis_index i dim = Some k -> (k < Z.to_nat dim)%nat.
Proof.
  unfold axis_index.
  destruct ((0 <=? i) && (i <? dim))%Z eqn:E1.
  - intros [= <-]. apply andb_true_iff in E1 as [H1 H2]. lia.
  - destruct ((- dim <=? i) && (i <? 0))%Z eqn:E2; [|discriminate].
    intros [= <-]. apply andb_true_iff in E2 as [H1 H2]. lia.
Qed.

Lemma zeros_rectangular (height width : Z) :
  rectangular (Z.to_nat height) (Z.to_nat width) (zeros height width).
Proof.
  unfold rectangular, zeros. split; [apply length_replicate|].
  apply Forall_forall. intros line Hin.
  apply elem_of_replicate in Hin as [-> _]. apply length_replicate.
Qed.

Lemma rectangular_lookup (rows columns : nat) (a : list (list F)) (i : nat) :
  rectangular rows columns a -> (i < rows)%nat ->
  exists line, a !! i = Some line /\ length line = columns.
Proof.
  intros [Hlen Hall] Hi.
  destruct (lookup_lt_is_Some_2 a i) as [line Hline]; [lia|].
  exists line. split; [assumption|].
  rewrite Forall_forall in Hall. apply Hall.
  eapply list_elem_of_lookup_2, Hline.
Qed.

(** One assignment: the pixel written holds the value, every other pixel
    is as before, and the array keeps its shape. *)
Lemma setitem_spec (height width : Z) (a : list (list F)) (r c : Z) (v : F)
    (i j : nat) :
  rectangular (Z.to_nat height) (Z.to_nat width) a ->
  position height width r c = Some (i, j) ->
  exists a',
    setitem height width a r c v = Some a'
    /\ rectangular (Z.to_nat height) (Z.to_nat width) a'
    /\ pixel a' i j = Some v
    /\ forall i' j', (i', j') <> (i, j) -> pixel a' i' j' = pixel a i' j'.
Proof.
  intros Hrect Hpos. unfold position in Hpos. unfold setitem.
  destruct (axis_index r height) as [i0|] eqn:Hr; [|discriminate].
  destruct (axis_index c width) as [j0|] eqn:Hc; [|discriminate].
  injection Hpos as -> ->.
  apply axis_index_range in Hr, Hc.
  destruct (rectangular_lookup _ _ a i Hrect Hr) as (line & Hline & Hlen).
  eexists. split; [reflexivity|]. split; [|split].
  - destruct Hrect as [Hl Hall]. split; [now rewrite length_alter|].
    apply Forall_forall. intros line' Hin.
    apply list_elem_of_lookup in Hin as [k Hk].
    destruct (decide (k = i)) as [->|Hne].
    + rewrite list_lookup_alter_eq, Hline in Hk. cbn in Hk.
      injection Hk as <-. now rewrite length_insert.
    + rewrite list_lookup_alter_ne in Hk by congruence.
      rewrite Forall_forall in Hall. apply Hall.
      eapply list_elem_of_lookup_2, Hk.
  - unfold pixel. rewrite list_lookup_alter_eq, Hline. cbn.
    apply list_lookup_insert_eq. lia.
  - intros i' j' Hne. unfold pixel.
    destruct (decide (i' = i)) as [->|Hi].
    + rewrite list_lookup_alter_eq, Hline. cbn.
      apply list_lookup_insert_ne. congruence.
    + now rewrite list_lookup_alter_ne by congruence.
Qed.

(** A run of assignments to distinct pixels: every pixel named holds its
    value, every other pixel is as before. *)
Lemma assign_spec (height width : Z) (indices : list (Z * Z * F))
    (a : list (list F)) :
  rectangular (Z.to_nat height) (Z.to_nat width) a ->
  Forall (fun t => is_Some (position height width (fst (fst t)) (snd (fst t))))
         indices ->
  List.NoDup (map (fun t => position height width (fst (fst t)) (snd (fst t)))
                  indices) ->
  exists a',
    assign height width a indices = Some a'
    /\ rectangular (Z.to_nat height) (Z.to_nat width) a'
    /\ (forall r c v i j,
          In (r, c, v) indices -> position height width r c = Some (i, j) ->
          pixel a' i j = Some v)
    /\ (forall i j,
          (forall r c v, In (r, c, v) indices ->
                         position height width r c <> Some (i, j)) ->
          pixel a' i j = pixel a i j).
Proof.
  revert a. induction indices as [|[[r c] v] t IH]; intros a Hrect Hval Hnd.
  - exists a. cbn. repeat split; try tauto; apply Hrect.
  - inversion Hval as [|? ? [[i j] Hpos] Hval']; subst.
    inversion Hnd as [|? ? Hnotin Hnd']; subst. cbn [fst snd] in *.
    destruct (setitem_spec height width a r c v i j Hrect Hpos)
      as (a1 & Hset & Hrect1 & Hpix & Hother).
    destruct (IH a1 Hrect1 Hval' Hnd') as (a' & Hassign & Hrect' & Hin' & Hout').
    exists a'. cbn [assign]. rewrite Hset. split; [assumption|].
    split; [assumption|]. split.
    + intros r0 c0 v0 i0 j0 [Heq|Hin] Hp.
      * injection Heq as <- <- <-. rewrite Hpos in Hp. injection Hp as <- <-.
        rewrite Hout'; [assumption|].
        intros r1 c1 v1 Hin1 Hp1. apply Hnotin.
        rewrite Hpos, <- Hp1.
        now apply (List.in_map
                     (fun t => position height width (fst (fst t)) (snd (fst t)))
                     t (r1, c1, v1)).
      * now apply (Hin' r0 c0 v0).
    + intros i0 j0 Hfree. rewrite Hout'.
      * apply Hother. intros [= -> ->].
        apply (Hfree r c v); [now left|assumption].
      * intros r1 c1 v1 Hin1. apply (Hfree r1 c1 v1). now right.
Qed.

(** ** The pixels [fill_raster] names *)

Lemma NoDup_map_inj_on {A B : Type} (f : A -> B) (l : list A) :
  (forall x y, In x l -> In y l -> f x = f y -> x = y) ->
  List.NoDup l -> List.NoDup (map f l).
Proof.
  induction l as [|x t IH]; intros Hinj Hnd; simpl; [constructor|].
  inversion Hnd as [|? ? Hnotin Hnd']; subst. constructor.
  - intros Hin. apply List.in_map_iff in Hin as (y & Heq & Hy).
    apply Hnotin. rewrite (Hinj x y); auto; [now left|now right].
  - apply IH; [|assumption]. intros a b Ha Hb. apply Hinj; now right.
Qed.

Lemma indexed_positions (width : Z) (s : nat) (values : list F) :
  map (fun t : Z * Z * F => fst t) (indexed width s values) =
  map (fun k => (row_of_cell width (Z.of_nat k), col_of_cell width (Z.of_nat k)))
      (seq s (length values)).
Proof.
  unfold indexed. revert s. induction values as [|v t IH]; intros s; cbn;
    [reflexivity|]. f_equal. apply IH.
Qed.

Lemma indexed_lookup (width : Z) (s k : nat) (values : list F) (v : F) :
  values !! k = Some v ->
  In (row_of_cell width (Z.of_nat (s + k)), col_of_cell width (Z.of_nat (s + k)), v)
     (indexed width s values).
Proof.
  unfold indexed. revert s k. induction values as [|x t IH]; intros s [|k];
    cbn; try discriminate.
  - intros [= ->]. left. now rewrite Nat.add_0_r.
  - intros Hk. right. replace (s + S k)%nat with (S s + k)%nat by lia.
    now apply IH.
Qed.

(** The pixel of row number [k] of the frame: that of the cell index
    [k], one less than the number of the cell in that row. *)
Lemma position_of_index (width height k : Z) :
  (0 < width)%Z -> (0 < height)%Z -> (0 <= k < width * height)%Z ->
  position height width (row_of_cell width k) (col_of_cell width k) =
  Some (Z.to_nat (((k - 1) mod (width * height)) / width),
        Z.to_nat (((k - 1) mod (width * height)) mod width)).
Proof.
  intros Hw Hh Hk. unfold position, row_of_cell, col_of_cell.
  destruct (Z.eq_dec k 0) as [->|Hk0].
  - replace (0 - 1)%Z with (-1)%Z by lia.
    assert (E1 : ((-1) / width = -1)%Z).
    { symmetry. apply (Z.div_unique (-1) width (-1) (width - 1)); lia. }
    assert (E2 : ((-1) mod width = width - 1)%Z).
    { symmetry. apply (Z.mod_unique (-1) width (-1) (width - 1)); lia. }
    assert (E3 : ((-1) mod (width * height) = width * height - 1)%Z).
    { symmetry.
      apply (Z.mod_unique (-1) (width * height) (-1) (width * height - 1)); nia. }
    assert (E4 : ((width * height - 1) / width = height - 1)%Z).
    { symmetry.
      apply (Z.div_unique (width * height - 1) width (height - 1) (width - 1));
        nia. }
    assert (E5 : ((width * height - 1) mod width = width - 1)%Z).
    { symmetry.
      apply (Z.mod_unique (width * height - 1) width (height - 1) (width - 1));
        nia. }
    rewrite E1, E2, E3, E4, E5. unfold axis_index.
    destruct (Z.leb_spec 0 (-1)); [lia|]. cbn [andb].
    destruct (Z.leb_spec (- height) (-1)); [|lia].
    destruct (Z.ltb_spec (-1) 0); [|lia]. cbn [andb].
    destruct (Z.leb_spec 0 (width - 1)); [|lia].
    destruct (Z.ltb_spec (width - 1) width); [|lia]. cbn [andb].
    do 2 f_equal. lia.
  - rewrite (Z.mod_small (k - 1) (width * height)) by lia.
    assert (Hq : (0 <= (k - 1) / width < height)%Z).
    { split; [apply Z.div_pos; lia|]. apply Z.div_lt_upper_bound; lia. }
    pose proof (Z.mod_pos_bound (k - 1) width Hw) as Hr.
    unfold axis_index.
    destruct (Z.leb_spec 0 ((k - 1) / width)); [|lia].
    destruct (Z.ltb_spec ((k - 1) / width) height); [|lia]. cbn [andb].
    destruct (Z.leb_spec 0 ((k - 1) mod width)); [|lia].
    destruct (Z.ltb_spec ((k - 1) mod width) width); [|lia]. cbn [andb].
    reflexivity.
Qed.

Lemma position_of_index_inj (width height k k' : Z) :
  (0 < width)%Z -> (0 < height)%Z ->
  (0 <= k < width * height)%Z -> (0 <= k' < width * height)%Z ->
  position height width (row_of_cell width k) (col_of_cell width k) =
  position height width (row_of_cell width k') (col_of_cell width k') ->
  k = k'.
Proof.
  intros Hw Hh Hk Hk'.
  rewrite !position_of_index by assumption.
  assert (Hn : (0 < width * height)%Z) by nia.
  pose proof (Z.mod_pos_bound (k - 1) _ Hn) as Hq.
  pose proof (Z.mod_pos_bound (k' - 1) _ Hn) as Hq'.
  set (q := ((k - 1) mod (width * height))%Z) in *.
  set (q' := ((k' - 1) mod (width * height))%Z) in *.
  intros [= E1 E2].
  pose proof (Z.mod_pos_bound q width Hw). pose proof (Z.mod_pos_bound q' width Hw).
  assert (0 <= q / width)%Z by (apply Z.div_pos; lia).
  assert (0 <= q' / width)%Z by (apply Z.div_pos; lia).
  apply Z2Nat.inj in E1; [|lia|lia]. apply Z2Nat.inj in E2; [|lia|lia].
  assert (Hqq : q = q').
  { rewrite (Z.div_mod q width), (Z.div_mod q' width) by lia. now rewrite E1, E2. }
  unfold q, q' in Hqq.
  destruct (Z.eq_dec k 0) as [->|Hk0], (Z.eq_dec k' 0) as [->|Hk0'];
    [reflexivity| | |].
  - rewrite (Z.mod_small (k' - 1)) in Hqq by lia.
    replace (0 - 1)%Z with (-1)%Z in Hqq by lia.
    rewrite <- (Z.mod_unique (-1) (width * height) (-1) (width * height - 1))
      in Hqq by lia. lia.
  - rewrite (Z.mod_small (k - 1)) in Hqq by lia.
    replace (0 - 1)%Z with (-1)%Z in Hqq by lia.
    rewrite <- (Z.mod_unique (-1) (width * height) (-1) (width * height - 1))
      in Hqq by lia. lia.
  - rewrite !Z.mod_small in Hqq by lia. lia.
Qed.

(** [fill_raster] on a frame of one row per pixel: no index is out of
    range, the array has the shape of the grid, and row number [k] of the
    frame is written to the pixel of cell index [k]. *)
Lemma fill_raster_spec (width height : Z) (df_complete : list (Z * F)) :
  (0 < width)%Z -> (0 < height)%Z ->
  Z.of_nat (length df_complete) = (width * height)%Z ->
  exists a,
    fill_raster width height df_complete = Some a
    /\ rectangular (Z.to_nat height) (Z.to_nat width) a
    /\ forall (k : nat) (v : F),
         map snd df_complete !! k = Some v ->
         pixel a (Z.to_nat (((Z.of_nat k - 1) mod (width * height)) / width))
                 (Z.to_nat (((Z.of_nat k - 1) mod (width * height)) mod width))
         = Some v.
Proof.
  intros Hw Hh Hlen. unfold fill_raster.
  replace (length df_complete) with (length (map snd df_complete))
    by apply List.length_map.
  fold (indexed width 0 (map snd df_complete)).
  assert (Hlen' : Z.of_nat (length (map snd df_complete)) = (width * height)%Z)
    by (now rewrite List.length_map).
  set (values := map snd df_complete) in *.
  destruct (assign_spec height width (indexed width 0 values)
              (zeros height width) (zeros_rectangular height width))
    as (a & Hassign & Hrect & Hin & _).
  - apply Forall_forall. intros [[r c] v] Hin. cbn [fst snd].
    apply list_elem_of_In in Hin.
    assert (Hpos : In (r, c) (map (fun t : Z * Z * F => fst t)
                                  (indexed width 0 values)))
      by (now apply (List.in_map (fun t : Z * Z * F => fst t) _ (r, c, v))).
    rewrite indexed_positions in Hpos.
    apply List.in_map_iff in Hpos as (k & [= <- <-] & Hk).
    apply List.in_seq in Hk. rewrite position_of_index by lia. eauto.
  - rewrite <- (List.map_map (fun t : Z * Z * F => fst t)
                  (fun p => position height width (fst p) (snd p))).
    rewrite indexed_positions, List.map_map. cbn [fst snd].
    apply NoDup_map_inj_on; [|apply List.seq_NoDup].
    intros x y Hx Hy Heq. apply List.in_seq in Hx, Hy.
    apply Nat2Z.inj.
    apply (position_of_index_inj width height); [assumption|assumption|lia|lia|].
    exact Heq.
  - exists a. split; [assumption|]. split; [assumption|].
    intros k v Hk.
    apply (Hin (row_of_cell width (Z.of_nat k)) (col_of_cell width (Z.of_nat k)) v).
    + apply (indexed_lookup width 0 k values v Hk).
    + apply lookup_lt_Some in Hk. apply position_of_index; lia.
Qed.

(** The table written to the array: one row per cell of the grid, in
    order, with the value the aggregation has for the cell, or 0. *)
Lemma z_w_merged_with_missing_eq (total_pixels : Z)
    (merged : list (Z * option F * option F)) :
  List.NoDup (map (fun m => fst (fst m)) merged) ->
  z_w_merged_with_missing total_pixels merged =
  map (fun i : nat =>
         (Z.of_nat i + 1,
          coalesce (List.find (fun m : Z * option F * option F =>
                                 Z.of_nat i + 1 =? fst (fst m)) merged
                      ≫= (fun m => snd (fst m)))
                   (f_of_Z 0)))
      (seq 0 (Z.to_nat total_pixels)).
Proof.
  intros Hnd. unfold z_w_merged_with_missing, cell_range_table.
  rewrite (left_join_unique (fun c : Z * F => fst c)
             (fun m : Z * option F * option F => fst (fst m))) by exact Hnd.
  rewrite List.map_map. cbn [fst snd].
  apply order_by_cell_sorted, cells_sorted.
Qed.

(** The convention of the reference grid is a bijection between the cell
    indices and the pixels. *)
Lemma cell_index_round_trip (width height c : Z) :
  0 < width -> 1 <= c <= width * height ->
  cell_of width (row_of_cell width c) (col_of_cell width c) = c
  /\ 0 <= row_of_cell width c < height
  /\ 0 <= col_of_cell width c < width.
Proof.
  intros Hw Hc. unfold cell_of, row_of_cell, col_of_cell.
  pose proof (Z.div_mod (c - 1) width) as Hdm.
  pose proof (Z.mod_pos_bound (c - 1) width Hw) as Hr.
  assert (Hq : 0 <= (c - 1) / width < height).
  { split; [apply Z.div_pos; lia|]. apply Z.div_lt_upper_bound; lia. }
  repeat split; lia.
Qed.

(** What [fill_raster] leaves in the pixel of cell [c]: the value in row
    number [c mod n] of the frame, which is the row of cell [c + 1], or
    of cell 1 for the last cell of the grid. *)
Lemma fill_raster_shift (width height : Z) (df_complete : list (Z * F))
    (a : list (list F)) (c : Z) (v : F) :
  0 < width -> 0 < height ->
  Z.of_nat (length df_complete) = width * height ->
  fill_raster width height df_complete = Some a ->
  1 <= c <= width * height ->
  map snd df_complete !! Z.to_nat (c mod (width * height)) = Some v ->
  pixel a (Z.to_nat (row_of_cell width c)) (Z.to_nat (col_of_cell width c))
  = Some v.
Proof.
  intros Hw Hh Hlen Hfill Hc Hv.
  destruct (fill_raster_spec width height df_complete Hw Hh Hlen)
    as (a' & Hfill' & _ & Hpix).
  rewrite Hfill in Hfill'. injection Hfill' as <-.
  specialize (Hpix _ _ Hv).
  assert (Hn : 0 < width * height) by nia.
  pose proof (Z.mod_pos_bound c _ Hn) as Hm.
  rewrite Z2Nat.id in Hpix by lia.
  rewrite Zminus_mod_idemp_l in Hpix.
  rewrite (Z.mod_small (c - 1)) in Hpix by lia.
  exact Hpix.
Qed.

End RasterFacts.

Lemma cell_index_round_trip_witness :
  (cell_of 2 (row_of_cell 2 3) (col_of_cell 2 3) = 3
   /\ 0 <= row_of_cell 2 3 < 2
   /\ 0 <= col_of_cell 2 3 < 2)%Z.
Proof.
  apply (cell_index_round_trip 2 2 3); lia.
Defined.

Lemma fill_raster_shift_witness :
  pixel (F := float) [[20%float; 30%float]; [40%float; 10%float]]
        (Z.to_nat (row_of_cell 2 1)) (Z.to_nat (col_of_cell 2 1))
  = Some 20%float.
Proof.
  apply (fill_raster_shift (F := float) 2 2
           [(1%Z, 10%float); (2%Z, 20%float); (3%Z, 30%float); (4%Z, 40%float)]
           _ 1 20%float).
  - lia.
  - lia.
  - reflexivity.
  - vm_compute. reflexivity.
  - lia.
  - reflexivity.
Defined.

(* ================================================================== *)
(** * The solver in exact arithmetic *)
(* ================================================================== *)

Section ExactFacts.
Local Open Scope R_scope.

Lemma xdiv_fin (a b : R) : b <> 0 -> xdiv (Fin a) (Fin b) = Fin (a / b).
Proof.
  intros Hb. unfold xdiv. destruct (Req_dec_T b 0); [contradiction|reflexivity].
Qed.

Lemma xdiv_zero (a : xreal) : xdiv a (Fin 0) = Undef.
Proof.
  destruct a as [x|]; [|reflexivity]. unfold xdiv.
  destruct (Req_dec_T 0 0); [reflexivity|congruence].
Qed.

Lemma xsqrt_fin (a : R) : 0 <= a -> xsqrt (Fin a) = Fin (sqrt a).
Proof.
  intros Ha. unfold xsqrt. destruct (Rlt_dec a 0); [lra|reflexivity].
Qed.

Lemma vsub_fin (a b : vec3 R) : vsub (fin3 a) (fin3 b) = fin3 (rsub a b).
Proof. reflexivity. Qed.

Lemma vadd_fin (a b : vec3 R) : vadd (fin3 a) (fin3 b) = fin3 (radd a b).
Proof. reflexivity. Qed.

Lemma vscale_fin (w : R) (a : vec3 R) :
  vscale (Fin w) (fin3 a) = fin3 (rscale w a).
Proof. reflexivity. Qed.

Lemma cross_fin (a b : vec3 R) : cross (fin3 a) (fin3 b) = fin3 (rcross a b).
Proof. reflexivity. Qed.

Lemma norm2_fin (v : vec3 R) : norm2 (fin3 v) = Fin (rnorm2 v).
Proof.
  unfold norm2, rnorm2. cbn. apply xsqrt_fin. nra.
Qed.

Lemma norm3_fin (v : vec3 R) : norm3 (fin3 v) = Fin (rnorm3 v).
Proof.
  unfold norm3, rnorm3. cbn. apply xsqrt_fin. nra.
Qed.

Lemma rnorm3_nonneg (v : vec3 R) : 0 <= rnorm3 v.
Proof. apply sqrt_pos. Qed.

Lemma rnorm3_zero (v : vec3 R) :
  rnorm3 v = 0 -> vx v = 0 /\ vy v = 0 /\ vz v = 0.
Proof.
  unfold rnorm3. intros Hs. apply sqrt_eq_0 in Hs; [|nra].
  assert (0 <= vx v * vx v) by nra.
  assert (0 <= vy v * vy v) by nra.
  assert (0 <= vz v * vz v) by nra.
  repeat split; nra.
Qed.

(** ** [calculate_slope] *)

Lemma edge_slope_fin (dz d : R) :
  edge_slope (Fin dz) (Fin d) =
  Fin (if Req_dec_T d 0 then 0 else Rabs (dz / d)).
Proof.
  unfold edge_slope. cbn. destruct (Req_dec_T d 0) as [Hd|Hd]; cbn.
  - reflexivity.
  - unfold xdiv. destruct (Req_dec_T d 0); [contradiction|reflexivity].
Qed.

Lemma calculate_slope_fin (vertex neighbor1 neighbor2 : vec3 R) :
  calculate_slope (fin3 vertex) (fin3 neighbor1) (fin3 neighbor2) =
  Fin (mean_slope vertex neighbor1 neighbor2).
Proof.
  unfold calculate_slope. rewrite !vsub_fin, !norm2_fin.
  cbn [fin3 vmap vz]. rewrite !edge_slope_fin.
  cbn. unfold xdiv. destruct (Req_dec_T 2 0); [lra|]. reflexivity.
Qed.

Lemma slope_magnitude_nonneg (p q : vec3 R) : 0 <= slope_magnitude p q.
Proof.
  unfold slope_magnitude. destruct (Req_dec_T _ 0); [lra|apply Rabs_pos].
Qed.

Lemma mean_slope_nonneg (v n1 n2 : vec3 R) : 0 <= mean_slope v n1 n2.
Proof.
  unfold mean_slope.
  pose proof (slope_magnitude_nonneg v n1). pose proof (slope_magnitude_nonneg v n2).
  lra.
Qed.

(** ** [calculate_barycentric_weights] *)

Lemma flat_weight_fin : flat_weight = Fin flat_weight_R.
Proof.
  unfold flat_weight, flat_weight_R. cbn. apply xdiv_fin. lra.
Qed.

Lemma slope_weights_fin (sA sB sC : R) :
  slope_weights (Fin sA) (Fin sB) (Fin sC) =
  fin_triple (slope_weights_R sA sB sC).
Proof.
  unfold slope_weights, slope_weights_R. rewrite flat_weight_fin. cbn.
  destruct (Req_dec_T (sA + sB + sC) 0) as [Ht|Ht]; cbn.
  - reflexivity.
  - unfold xdiv. destruct (Req_dec_T (sA + sB + sC) 0); [contradiction|reflexivity].
Qed.

(** The three cross products around any point add up to the normal. *)
Lemma sub_areas_positive (G A B C : vec3 R) :
  let nl := rnorm3 (triangle_normal A B C) in
  nl <> 0 ->
  0 <= sub_area G B C nl /\ 0 <= sub_area G C A nl /\ 0 <= sub_area G A B nl /\
  0 < sub_area G B C nl + sub_area G C A nl + sub_area G A B nl.
Proof.
  intros nl Hnl.
  assert (Hpos : 0 < nl).
  { pose proof (rnorm3_nonneg (triangle_normal A B C)). unfold nl in *. lra. }
  assert (HA : 0 <= sub_area G B C nl).
  { unfold sub_area. apply Rmult_le_pos; [apply rnorm3_nonneg|].
    left. now apply Rinv_0_lt_compat. }
  assert (HB : 0 <= sub_area G C A nl).
  { unfold sub_area. apply Rmult_le_pos; [apply rnorm3_nonneg|].
    left. now apply Rinv_0_lt_compat. }
  assert (HC : 0 <= sub_area G A B nl).
  { unfold sub_area. apply Rmult_le_pos; [apply rnorm3_nonneg|].
    left. now apply Rinv_0_lt_compat. }
  repeat (split; [assumption|]).
  destruct (Req_dec_T (sub_area G B C nl + sub_area G C A nl + sub_area G A B nl) 0)
    as [Hz|Hz]; [|lra].
  exfalso. apply Hnl.
  assert (Hz3 : sub_area G B C nl = 0 /\ sub_area G C A nl = 0 /\ sub_area G A B nl = 0)
    by lra.
  destruct Hz3 as (Ha & Hb & Hc).
  assert (Hnum : forall x, x / nl = 0 -> x = 0).
  { intros x Hx. apply (Rmult_eq_compat_r nl) in Hx.
    unfold Rdiv in Hx. rewrite Rmult_assoc, Rinv_l, Rmult_1_r, Rmult_0_l in Hx; lra. }
  apply Hnum, rnorm3_zero in Ha. apply Hnum, rnorm3_zero in Hb.
  apply Hnum, rnorm3_zero in Hc.
  unfold nl, rnorm3.
  destruct G as [gx gy gz], A as [ax ay az], B as [bx by' bz], C as [cx cy cz].
  cbn in *.
  destruct Ha as (Ha1 & Ha2 & Ha3), Hb as (Hb1 & Hb2 & Hb3), Hc as (Hc1 & Hc2 & Hc3).
  assert (E1 : (by' - ay) * (cz - az) - (bz - az) * (cy - ay) = 0).
  { transitivity
      (((gy - by') * (gz - cz) - (gz - bz) * (gy - cy)) +
       ((gy - cy) * (gz - az) - (gz - cz) * (gy - ay)) +
       ((gy - ay) * (gz - bz) - (gz - az) * (gy - by'))); [ring|].
    rewrite Ha1, Hb1, Hc1. ring. }
  assert (E2 : (bz - az) * (cx - ax) - (bx - ax) * (cz - az) = 0).
  { transitivity
      (((gz - bz) * (gx - cx) - (gx - bx) * (gz - cz)) +
       ((gz - cz) * (gx - ax) - (gx - cx) * (gz - az)) +
       ((gz - az) * (gx - bx) - (gx - ax) * (gz - bz))); [ring|].
    rewrite Ha2, Hb2, Hc2. ring. }
  assert (E3 : (bx - ax) * (cy - ay) - (by' - ay) * (cx - ax) = 0).
  { transitivity
      (((gx - bx) * (gy - cy) - (gy - by') * (gx - cx)) +
       ((gx - cx) * (gy - ay) - (gy - cy) * (gx - ax)) +
       ((gx - ax) * (gy - by') - (gy - ay) * (gx - bx))); [ring|].
    rewrite Ha3, Hb3, Hc3. ring. }
  rewrite E1, E2, E3.
  replace (0 * 0 + 0 * 0 + 0 * 0) with 0 by lra. apply sqrt_0.
Qed.

Lemma area_weights_fin (w : R * R * R) (A B C : vec3 R) :
  rnorm3 (triangle_normal A B C) <> 0 ->
  area_weights (fin_triple w) (fin3 A) (fin3 B) (fin3 C) =
  fin_triple (area_weights_R w A B C).
Proof.
  intros Hnl. destruct w as [[wA wB] wC].
  pose proof (sub_areas_positive (weighted_centroid (wA, wB, wC) A B C) A B C Hnl)
    as (_ & _ & _ & Htot).
  unfold area_weights, area_weights_R, fin_triple, triple_map.
  rewrite !vscale_fin, !vadd_fin, !vsub_fin, !cross_fin, !norm3_fin.
  fold (triangle_normal A B C).
  rewrite !xdiv_fin by exact Hnl.
  cbn [fadd exact xlift2].
  unfold sub_area, weighted_centroid in *. cbn [fst snd] in *.
  rewrite !xdiv_fin by lra.
  reflexivity.
Qed.

Lemma area_weights_collinear (w : R * R * R) (A B C : vec3 R) :
  rnorm3 (triangle_normal A B C) = 0 ->
  area_weights (fin_triple w) (fin3 A) (fin3 B) (fin3 C) = (Undef, Undef, Undef).
Proof.
  intros Hnl. destruct w as [[wA wB] wC].
  unfold area_weights, fin_triple, triple_map.
  rewrite !vscale_fin, !vadd_fin, !vsub_fin, !cross_fin, !norm3_fin.
  fold (triangle_normal A B C). rewrite Hnl.
  cbn [fdiv exact]. rewrite !xdiv_zero. reflexivity.
Qed.

Lemma calculate_barycentric_weights_fin (A B C : vec3 R) :
  calculate_barycentric_weights (fin3 A, fin3 B, fin3 C) =
  area_weights
    (fin_triple (slope_weights_R (mean_slope A B C) (mean_slope B A C)
                                 (mean_slope C A B)))
    (fin3 A) (fin3 B) (fin3 C).
Proof.
  unfold calculate_barycentric_weights.
  rewrite !calculate_slope_fin, slope_weights_fin. reflexivity.
Qed.

Lemma area_weights_R_sum (w : R * R * R) (A B C : vec3 R) :
  rnorm3 (triangle_normal A B C) <> 0 ->
  let '(a, b, c) := area_weights_R w A B C in
  0 <= a /\ 0 <= b /\ 0 <= c /\ a + b + c = 1.
Proof.
  intros Hnl. unfold area_weights_R.
  pose proof (sub_areas_positive (weighted_centroid w A B C) A B C Hnl)
    as (Ha & Hb & Hc & Htot).
  cbv zeta in *.
  set (a := sub_area _ B C _) in *. set (b := sub_area _ C A _) in *.
  set (c := sub_area _ A B _) in *.
  repeat split.
  - apply Rmult_le_pos; [assumption|]. left. now apply Rinv_0_lt_compat.
  - apply Rmult_le_pos; [assumption|]. left. now apply Rinv_0_lt_compat.
  - apply Rmult_le_pos; [assumption|]. left. now apply Rinv_0_lt_compat.
  - field. lra.
Qed.

(** ** Flat ground *)

Lemma flat_slope_magnitude (p q : vec3 R) :
  vz q = vz p -> slope_magnitude p q = 0.
Proof.
  intros Hz. unfold slope_magnitude.
  destruct (Req_dec_T _ 0); [reflexivity|].
  rewrite Hz. replace (vz p - vz p) with 0 by ring.
  unfold Rdiv. rewrite Rmult_0_l. apply Rabs_R0.
Qed.

Lemma flat_slope_weights (A B C : vec3 R) :
  vz B = vz A -> vz C = vz A ->
  slope_weights_R (mean_slope A B C) (mean_slope B A C) (mean_slope C A B) =
  (flat_weight_R, flat_weight_R, flat_weight_R).
Proof.
  intros HB HC. unfold mean_slope.
  rewrite !flat_slope_magnitude by congruence.
  unfold slope_weights_R.
  destruct (Req_dec_T _ 0) as [_|Hne]; [reflexivity|]. exfalso. apply Hne. lra.
Qed.

(** The length of a vector along the third axis. *)
Lemma rnorm3_axis (v : vec3 R) (z : R) :
  vx v = 0 -> vy v = 0 -> vz v = z -> 0 <= z -> rnorm3 v = z.
Proof.
  intros Hx Hy Hz Hpos. unfold rnorm3. rewrite Hx, Hy, Hz.
  replace (0 * 0 + 0 * 0 + z * z) with (z * z) by ring.
  now apply sqrt_square.
Qed.

(** With slope weights of exactly 1/3 the centroid is the centroid of the
    triangle and the three sub-areas are equal: the literal of the flat
    branch is what keeps the flat weights from being thirds. *)
Lemma rnorm3_scale (k : R) (v : vec3 R) :
  0 <= k -> rnorm3 (rscale k v) = k * rnorm3 v.
Proof.
  intros Hk. unfold rnorm3, rscale. cbn.
  replace (k * vx v * (k * vx v) + k * vy v * (k * vy v) + k * vz v * (k * vz v))
    with (k * k * (vx v * vx v + vy v * vy v + vz v * vz v)) by ring.
  rewrite sqrt_mult by nra. now rewrite sqrt_square.
Qed.

Lemma area_weights_R_thirds (A B C : vec3 R) :
  rnorm3 (triangle_normal A B C) <> 0 ->
  area_weights_R (1 / 3, 1 / 3, 1 / 3) A B C = (1 / 3, 1 / 3, 1 / 3).
Proof.
  intros Hnl. unfold area_weights_R. cbv zeta.
  set (G := weighted_centroid (1 / 3, 1 / 3, 1 / 3) A B C).
  set (N := triangle_normal A B C) in *.
  assert (HA : rcross (rsub G B) (rsub G C) = rscale (1 / 3) N).
  { unfold G, N, weighted_centroid, triangle_normal, rcross, rsub, radd, rscale.
    destruct A, B, C. cbn. f_equal; field. }
  assert (HB : rcross (rsub G C) (rsub G A) = rscale (1 / 3) N).
  { unfold G, N, weighted_centroid, triangle_normal, rcross, rsub, radd, rscale.
    destruct A, B, C. cbn. f_equal; field. }
  assert (HC : rcross (rsub G A) (rsub G B) = rscale (1 / 3) N).
  { unfold G, N, weighted_centroid, triangle_normal, rcross, rsub, radd, rscale.
    destruct A, B, C. cbn. f_equal; field. }
  unfold sub_area. rewrite HA, HB, HC, rnorm3_scale by lra.
  f_equal; [f_equal|]; field; exact Hnl.
Qed.

Lemma flat_triangle_normal :
  rnorm3 (triangle_normal (V3 0 0 0) (V3 1 0 0) (V3 0 1 0)) = 1.
Proof. apply rnorm3_axis; cbn; lra. Qed.

(** Lines 109-135 started from slope weights of exactly 1/3 return exactly
    (1/3, 1/3, 1/3) on every triangle of positive area. *)
Lemma area_weights_of_thirds (A B C : vec3 R) :
  0 < triangle_area A B C ->
  area_weights (Fin (1 / 3), Fin (1 / 3), Fin (1 / 3)) (fin3 A) (fin3 B) (fin3 C)
  = (Fin (1 / 3), Fin (1 / 3), Fin (1 / 3)).
Proof.
  intros Harea.
  assert (Hnl : rnorm3 (triangle_normal A B C) <> 0)
    by (unfold triangle_area in Harea; lra).
  change (Fin (1 / 3), Fin (1 / 3), Fin (1 / 3))
    with (fin_triple (1 / 3, 1 / 3, 1 / 3)).
  now rewrite area_weights_fin, area_weights_R_thirds.
Qed.

Lemma area_weights_of_thirds_witness :
  0 < triangle_area (V3 0 0 0) (V3 1 0 0) (V3 0 1 0)
  /\ area_weights (Fin (1 / 3), Fin (1 / 3), Fin (1 / 3))
       (fin3 (V3 0 0 0)) (fin3 (V3 1 0 0)) (fin3 (V3 0 1 0))
     = (Fin (1 / 3), Fin (1 / 3), Fin (1 / 3)).
Proof.
  assert (Harea : 0 < triangle_area (V3 0 0 0) (V3 1 0 0) (V3 0 1 0))
    by (unfold triangle_area; rewrite flat_triangle_normal; lra).
  split; [exact Harea|].
  exact (area_weights_of_thirds (V3 0 0 0) (V3 1 0 0) (V3 0 1 0) Harea).
Defined.

(** On flat ground the solver goes on from the literal. *)
Lemma flat_weights_from_literal (A B C : vec3 R) :
  vz B = vz A -> vz C = vz A ->
  calculate_barycentric_weights (fin3 A, fin3 B, fin3 C) =
  area_weights (Fin flat_weight_R, Fin flat_weight_R, Fin flat_weight_R)
               (fin3 A) (fin3 B) (fin3 C).
Proof.
  intros HB HC. now rewrite calculate_barycentric_weights_fin, flat_slope_weights.
Qed.

(** ** Collinear points *)

Lemma collinear_triangle_area :
  triangle_area (V3 0 0 0) (V3 1 0 1) (V3 2 0 2) = 0.
Proof.
  unfold triangle_area, triangle_normal, rnorm3. cbn.
  replace ((0 - 0) * (2 - 0) - (1 - 0) * (0 - 0)) with 0 by ring.
  replace ((1 - 0) * (2 - 0) - (1 - 0) * (2 - 0)) with 0 by ring.
  replace ((1 - 0) * (0 - 0) - (0 - 0) * (2 - 0)) with 0 by ring.
  replace (0 * 0 + 0 * 0 + 0 * 0) with 0 by ring.
  rewrite sqrt_0. lra.
Qed.

(** Whatever the slopes, a triangle without area has no weights. *)
Lemma collinear_weights_undefined (A B C : vec3 R) :
  triangle_area A B C = 0 ->
  calculate_barycentric_weights (fin3 A, fin3 B, fin3 C) = (Undef, Undef, Undef).
Proof.
  intros Harea. rewrite calculate_barycentric_weights_fin.
  apply area_weights_collinear. unfold triangle_area in Harea. lra.
Qed.

Lemma collinear_weights_undefined_witness :
  triangle_area (V3 0 0 0) (V3 1 0 1) (V3 2 0 2) = 0
  /\ calculate_barycentric_weights (F := xreal) collinear_triangle
     = (Undef, Undef, Undef).
Proof.
  split; [exact collinear_triangle_area|].
  exact (collinear_weights_undefined (V3 0 0 0) (V3 1 0 1) (V3 2 0 2)
           collinear_triangle_area).
Defined.

End ExactFacts.

Section ExactAggregation.
Local Open Scope R_scope.

Lemma sql_sum_from_fin {A : Type} (g : A -> R) (a : R) (l : list A) :
  sql_sum_from (Some (Fin a)) (map (fun x => Some (Fin (g x))) l) =
  Some (Fin (a + Rsum (map g l))).
Proof.
  revert a. induction l as [|x t IH]; intros a; cbn.
  - apply (f_equal Some), (f_equal Fin). unfold Rsum. cbn. lra.
  - rewrite IH. apply (f_equal Some), (f_equal Fin). unfold Rsum. cbn. lra.
Qed.

Lemma sql_sum_fin {A : Type} (g : A -> R) (l : list A) :
  l <> [] ->
  sql_sum (map (fun x => Some (Fin (g x))) l) = Some (Fin (Rsum (map g l))).
Proof.
  destruct l as [|x t]; [congruence|]. intros _.
  unfold sql_sum. cbn. apply sql_sum_from_fin.
Qed.

(** The average of a cell whose joined rows carry the finite pairs
    (water surface elevation, coverage fraction) of [rows]. *)
Lemma cell_average_fin (joined : list (merged_row xreal)) (c : Z)
    (rows : list (R * R)) :
  map (fun r => (m_wse r, coverage_fraction (m_row r))) (group c joined) =
    map (fun p => (Some (Fin (fst p)), Fin (snd p))) rows ->
  rows <> [] ->
  Rsum (map snd rows) <> 0 ->
  cell_average joined c =
  Some (Fin (Rsum (map (fun p => fst p * snd p) rows) / Rsum (map snd rows))).
Proof.
  intros Hrows Hne Hsum. unfold cell_average, weighted_sum, coverage_sum.
  assert (E1 : map (fun r : merged_row xreal =>
                      null_lift2 fmul (m_wse r) (Some (coverage_fraction (m_row r))))
                   (group c joined) =
               map (fun q : option xreal * xreal => null_lift2 fmul (fst q) (Some (snd q)))
                   (map (fun r => (m_wse r, coverage_fraction (m_row r)))
                        (group c joined)))
    by (now rewrite List.map_map).
  assert (E2 : map (fun r : merged_row xreal => Some (coverage_fraction (m_row r)))
                   (group c joined) =
               map (fun q : option xreal * xreal => Some (snd q))
                   (map (fun r => (m_wse r, coverage_fraction (m_row r)))
                        (group c joined)))
    by (now rewrite List.map_map).
  rewrite E1, E2, Hrows, !List.map_map. cbn [fst snd null_lift2 fmul exact xlift2].
  rewrite (sql_sum_fin (fun p => fst p * snd p) rows Hne).
  rewrite (sql_sum_fin snd rows Hne).
  cbn [null_lift2 fdiv exact]. now rewrite xdiv_fin.
Qed.

(** On finite values DuckDB's [>=] is that of the reals. *)
Lemma sql_ge_fin (x y : R) : sql_ge (Fin x) (Fin y) = true <-> y <= x.
Proof.
  unfold sql_ge. cbn. destruct (Rle_dec y x); split; intros; auto; discriminate.
Qed.

End ExactAggregation.

(* ================================================================== *)
(** * SlopeEstimator and BarycentricWeightSolver *)
(* ================================================================== *)

Section SolverClaims.
Local Open Scope R_scope.

(** C4. In exact arithmetic [calculate_slope] returns, on any three
    points, a finite number (no NaN and no infinity: its one division is
    guarded): the arithmetic mean of the two slope magnitudes
    |dz / horizontal distance|, in which a neighbour at horizontal distance
    zero counts for 0; and that mean is never negative. *)
Theorem calculate_slope_mean_of_magnitudes (vertex neighbor1 neighbor2 : vec3 R) :
  calculate_slope (fin3 vertex) (fin3 neighbor1) (fin3 neighbor2) =
    Fin ((slope_magnitude vertex neighbor1 + slope_magnitude vertex neighbor2) / 2)
  /\ 0 <= (slope_magnitude vertex neighbor1 + slope_magnitude vertex neighbor2) / 2.
Proof.
  split.
  - apply calculate_slope_fin.
  - apply mean_slope_nonneg.
Qed.

(** C1. In exact arithmetic the solver returns, for every triangle of
    positive area, three finite weights, none negative, whose sum is 1
    within 1e-9 (the sum is 1). *)
Theorem weights_nonnegative_sum_one (A B C : vec3 R) :
  0 < triangle_area A B C ->
  exists w1 w2 w3 : R,
    calculate_barycentric_weights (fin3 A, fin3 B, fin3 C) = (Fin w1, Fin w2, Fin w3)
    /\ 0 <= w1 /\ 0 <= w2 /\ 0 <= w3
    /\ Rabs (w1 + w2 + w3 - 1) <= 1 / 10 ^ 9.
Proof.
  intros Harea.
  assert (Hnl : rnorm3 (triangle_normal A B C) <> 0).
  { unfold triangle_area in Harea. lra. }
  rewrite calculate_barycentric_weights_fin, area_weights_fin by exact Hnl.
  pose proof (area_weights_R_sum
                (slope_weights_R (mean_slope A B C) (mean_slope B A C)
                                 (mean_slope C A B)) A B C Hnl) as Hsum.
  destruct (area_weights_R _ A B C) as [[w1 w2] w3].
  destruct Hsum as (H1 & H2 & H3 & Hs).
  exists w1, w2, w3. repeat (split; [first [reflexivity|assumption]|]).
  rewrite Hs. replace (1 - 1) with 0 by ring. rewrite Rabs_R0.
  apply Rlt_le, Rdiv_lt_0_compat; [lra|]. apply pow_lt. lra.
Qed.

Lemma sloped_triangle_area : 0 < triangle_area (V3 0 0 0) (V3 1 0 0) (V3 0 1 10).
Proof.
  unfold triangle_area, triangle_normal, rnorm3. cbn.
  apply Rdiv_lt_0_compat; [|lra]. apply sqrt_lt_R0. lra.
Qed.

Lemma weights_nonnegative_sum_one_witness :
  0 < triangle_area (V3 0 0 0) (V3 1 0 0) (V3 0 1 10) /\
  exists w1 w2 w3 : R,
    calculate_barycentric_weights (F := xreal) sloped_triangle = (Fin w1, Fin w2, Fin w3)
    /\ 0 <= w1 /\ 0 <= w2 /\ 0 <= w3
    /\ Rabs (w1 + w2 + w3 - 1) <= 1 / 10 ^ 9.
Proof.
  split; [exact sloped_triangle_area|].
  exact (weights_nonnegative_sum_one (V3 0 0 0) (V3 1 0 0) (V3 0 1 10)
           sloped_triangle_area).
Defined.

(** C2. On the flat right triangle (0,0,0), (1,0,0), (0,1,0) the solver
    takes the literal 0.33333333333 for each slope weight and returns,
    in binary64 as in exact arithmetic, 0.33333333334 for the first
    vertex and 0.33333333333 for the other two: not (1/3, 1/3, 1/3). *)
Theorem flat_triangle_weights_not_thirds :
  calculate_barycentric_weights (F := PrimFloat.float) flat_triangle =
    (0x1.5555555572a77p-2%float, 0x1.5555555546ac6p-2%float,
     0x1.5555555546ac6p-2%float)
  /\ calculate_barycentric_weights (F := xreal) flat_triangle =
    (Fin (33333333334 / 100000000000), Fin (33333333333 / 100000000000),
     Fin (33333333333 / 100000000000))
  /\ 33333333334 / 100000000000 <> 1 / 3
  /\ 33333333333 / 100000000000 <> 1 / 3.
Proof.
  split; [vm_compute; reflexivity|]. split; [|split; lra].
  change (flat_triangle (F := xreal))
    with (fin3 (V3 0 0 0), fin3 (V3 1 0 0), fin3 (V3 0 1 0)).
  rewrite calculate_barycentric_weights_fin, flat_slope_weights by reflexivity.
  pose proof flat_triangle_normal as Hn.
  rewrite area_weights_fin by lra.
  unfold area_weights_R. cbv zeta. rewrite Hn. unfold sub_area.
  rewrite (rnorm3_axis _ (1 - 2 * flat_weight_R))
    by (unfold flat_weight_R; cbn; lra).
  rewrite (rnorm3_axis (rcross (rsub _ (V3 0 1 0)) _) flat_weight_R)
    by (unfold flat_weight_R; cbn; lra).
  rewrite (rnorm3_axis (rcross (rsub _ (V3 0 0 0)) _) flat_weight_R)
    by (unfold flat_weight_R; cbn; lra).
  unfold fin_triple, triple_map, flat_weight_R.
  f_equal; [f_equal|]; apply f_equal; field.
Qed.

(** C3. On the collinear points (0,0,0), (1,0,1), (2,0,2) every slope is
    1, so the flat branch is not taken; the normal has length 0, and the
    three weights the solver returns are NaN in binary64 and undefined in
    exact arithmetic. *)
Theorem collinear_triangle_weights_nan :
  (let '(A, B, C) := collinear_triangle (F := PrimFloat.float) in
   (calculate_slope A B C, calculate_slope B A C, calculate_slope C A B))
    = (1%float, 1%float, 1%float)
  /\ triple_map PrimFloat.is_nan
       (calculate_barycentric_weights (F := PrimFloat.float) collinear_triangle)
     = (true, true, true)
  /\ calculate_barycentric_weights (F := xreal) collinear_triangle
     = (Undef, Undef, Undef).
Proof.
  split; [vm_compute; reflexivity|]. split; [vm_compute; reflexivity|].
  change (collinear_triangle (F := xreal))
    with (fin3 (V3 0 0 0), fin3 (V3 1 0 1), fin3 (V3 2 0 2)).
  rewrite calculate_barycentric_weights_fin.
  apply area_weights_collinear.
  pose proof collinear_triangle_area as Harea. unfold triangle_area in Harea. lra.
Qed.

End SolverClaims.

(** ** The same claims on doubles *)

Lemma scaled_right_triangle_area (a : R) :
  (0 < a)%R -> (0 < triangle_area (V3 0 0 0) (V3 a 0 0) (V3 0 a a))%R.
Proof.
  intros Ha. unfold triangle_area, triangle_normal, rnorm3. cbn.
  apply Rdiv_lt_0_compat; [|lra]. apply sqrt_lt_R0.
  assert (0 < a * a)%R by nra. nra.
Qed.

Section SolverOnDoubles.
Local Open Scope float_scope.

(** C1 on doubles.  The right triangle (0,0,0), (2^600,0,0),
    (0,2^600,2^600) has finite coordinates and a positive area, and the
    solver returns three NaN for it: the squares under the norms overflow.
    The right triangle with legs 2^-600 gets three NaN as well: there the
    squares underflow to 0. *)
Lemma weights_nan_on_huge_triangle :
  (0 < triangle_area (V3 0 0 0) (V3 (2 ^ 600) 0 0) (V3 0 (2 ^ 600) (2 ^ 600)))%R
  /\ calculate_barycentric_weights huge_triangle = (nan, nan, nan)
  /\ calculate_barycentric_weights tiny_triangle = (nan, nan, nan).
Proof.
  split; [apply scaled_right_triangle_area, pow_lt; lra|].
  split; vm_compute; reflexivity.
Qed.

(** C4 on doubles.  On finite points [calculate_slope] returns an
    infinity when a quotient overflows (a rise of 2^600 over a distance of
    2^-500), NaN when the differences overflow (from -2^1023 to 2^1023 in
    x and in z), and 0.5 where the mean of the magnitudes is above 2^599:
    the distance 2^-600 of the first neighbour, whose square underflows,
    is taken for 0. *)
Lemma calculate_slope_not_finite_on_doubles :
  calculate_slope (V3 0 0 0) (V3 0x1p-500 0 0x1p+600) (V3 1 0 0) = infinity
  /\ calculate_slope (V3 (-0x1p+1023) 0 (-0x1p+1023)) (V3 0x1p+1023 0 0x1p+1023)
                     (V3 (-0x1p+1023) 1 (-0x1p+1023)) = nan
  /\ calculate_slope (V3 0 0 0) (V3 0x1p-600 0 1) (V3 1 0 1) = 0.5.
Proof.
  repeat split; vm_compute; reflexivity.
Qed.

End SolverOnDoubles.

(* ================================================================== *)
(** * MeshWeightPipeline *)
(* ================================================================== *)

Section PipelineClaims.
Context {F : Type} `{Float64 F}.

(** One turn of the loop appends one entry to each list, and prints the
    element when it appends nothing but NULLs. *)
Lemma process_triangle_step (dict : gmap Z (node_coords F))
    (st : weight_lists F) (row : triangle_row) :
  process_triangle dict st row =
  WeightLists
    (w_A_list st ++ [option_map (fun w => fst (fst w)) (row_weights dict row)])
    (w_B_list st ++ [option_map (fun w => snd (fst w)) (row_weights dict row)])
    (w_C_list st ++ [option_map (fun w => snd w) (row_weights dict row)])
    (printed st ++
     match row_weights dict row with
     | Some _ => []
     | None => [(pg_id row, [node_id_1 row; node_id_2 row; node_id_3 row])]
     end).
Proof.
  unfold process_triangle, row_weights. cbn [map].
  destruct (dict !! node_id_1 row) as [c1|];
    destruct (dict !! node_id_2 row) as [c2|];
    destruct (dict !! node_id_3 row) as [c3|];
    try reflexivity.
  destruct (calculate_barycentric_weights
              (coord_values c1, coord_values c2, coord_values c3))
    as [[w0 w1] w2].
  cbn [option_map fst snd]. now rewrite List.app_nil_r.
Qed.

Lemma compute_from (dict : gmap Z (node_coords F))
    (rows : list triangle_row) (st : weight_lists F) :
  fold_left (process_triangle dict) rows st =
  WeightLists
    (w_A_list st ++
     map (fun row => option_map (fun w => fst (fst w)) (row_weights dict row)) rows)
    (w_B_list st ++
     map (fun row => option_map (fun w => snd (fst w)) (row_weights dict row)) rows)
    (w_C_list st ++
     map (fun row => option_map (fun w => snd w) (row_weights dict row)) rows)
    (printed st ++
     flat_map (fun row =>
       match row_weights dict row with
       | Some _ => []
       | None => [(pg_id row, [node_id_1 row; node_id_2 row; node_id_3 row])]
       end) rows).
Proof.
  revert st. induction rows as [|row t IH]; intros st.
  - cbn. rewrite !List.app_nil_r. now destruct st.
  - cbn [fold_left]. rewrite IH, process_triangle_step. cbn [w_A_list w_B_list w_C_list printed].
    rewrite <- !List.app_assoc. reflexivity.
Qed.

Lemma compute_3d_barycentric_eq (dict : gmap Z (node_coords F))
    (rows : list triangle_row) :
  compute_3d_barycentric dict rows =
  WeightLists
    (map (fun row => option_map (fun w => fst (fst w)) (row_weights dict row)) rows)
    (map (fun row => option_map (fun w => snd (fst w)) (row_weights dict row)) rows)
    (map (fun row => option_map (fun w => snd w) (row_weights dict row)) rows)
    (flat_map (fun row =>
       match row_weights dict row with
       | Some _ => []
       | None => [(pg_id row, [node_id_1 row; node_id_2 row; node_id_3 row])]
       end) rows).
Proof.
  unfold compute_3d_barycentric. now rewrite compute_from.
Qed.

(** C8. The loop gives every element one entry in each weight list.  For
    an element one of whose node ids is not in the lookup the three
    entries are NULL and its identity is printed with its node ids; for
    an element whose nodes all resolve the entries are the weights of its
    triangle, whatever came before it. *)
Theorem unresolved_element_skipped (node_coords_dict : gmap Z (node_coords F))
    (triangles_df : list triangle_row) :
  let out := compute_3d_barycentric node_coords_dict triangles_df in
  (length (w_A_list out) = length triangles_df
   /\ length (w_B_list out) = length triangles_df
   /\ length (w_C_list out) = length triangles_df)
  /\ (forall (i : nat) (row : triangle_row),
        triangles_df !! i = Some row ->
        node_coords_dict !! node_id_1 row = None
        \/ node_coords_dict !! node_id_2 row = None
        \/ node_coords_dict !! node_id_3 row = None ->
        w_A_list out !! i = Some None
        /\ w_B_list out !! i = Some None
        /\ w_C_list out !! i = Some None
        /\ In (pg_id row, [node_id_1 row; node_id_2 row; node_id_3 row])
              (printed out))
  /\ (forall (i : nat) (row : triangle_row) (c1 c2 c3 : node_coords F),
        triangles_df !! i = Some row ->
        node_coords_dict !! node_id_1 row = Some c1 ->
        node_coords_dict !! node_id_2 row = Some c2 ->
        node_coords_dict !! node_id_3 row = Some c3 ->
        let weights :=
          calculate_barycentric_weights
            (coord_values c1, coord_values c2, coord_values c3) in
        w_A_list out !! i = Some (Some (fst (fst weights)))
        /\ w_B_list out !! i = Some (Some (snd (fst weights)))
        /\ w_C_list out !! i = Some (Some (snd weights))).
Proof.
  cbv zeta. rewrite compute_3d_barycentric_eq.
  cbn [w_A_list w_B_list w_C_list printed].
  split; [rewrite !List.length_map; auto|]. split.
  - intros i row Hrow Hmiss.
    assert (Hnone : row_weights node_coords_dict row = None).
    { unfold row_weights.
      destruct Hmiss as [->|[Hm|Hm]]; [reflexivity| |].
      - rewrite Hm. now destruct (node_coords_dict !! node_id_1 row).
      - rewrite Hm. now destruct (node_coords_dict !! node_id_1 row),
                                 (node_coords_dict !! node_id_2 row). }
    rewrite !lookup_map, Hrow. cbn. rewrite Hnone. cbn.
    repeat (split; [reflexivity|]).
    apply List.in_flat_map. exists row. split.
    + apply list_elem_of_In. eapply list_elem_of_lookup_2, Hrow.
    + rewrite Hnone. now left.
  - intros i row c1 c2 c3 Hrow H1 H2 H3.
    rewrite !lookup_map, Hrow. cbn. unfold row_weights. rewrite H1, H2, H3.
    cbn. auto.
Qed.

End PipelineClaims.

Lemma unresolved_element_skipped_witness :
  let out := compute_3d_barycentric (F := PrimFloat.float) mesh_nodes mesh_elements in
  mesh_elements !! 1%nat = Some (TriangleRow 11 1 2 99)
  /\ mesh_nodes (F := PrimFloat.float) !! 99%Z = None
  /\ w_A_list out !! 1%nat = Some None
  /\ w_B_list out !! 1%nat = Some None
  /\ w_C_list out !! 1%nat = Some None
  /\ In (11%Z, [1%Z; 2%Z; 99%Z]) (printed out).
Proof.
  cbv zeta. split; [reflexivity|]. split; [reflexivity|].
  destruct (unresolved_element_skipped (F := PrimFloat.float) mesh_nodes mesh_elements)
    as (_ & Hskip & _).
  apply (Hskip 1%nat (TriangleRow 11 1 2 99)); [reflexivity|].
  right. right. reflexivity.
Defined.

(* ================================================================== *)
(** * CellAggregator *)
(* ================================================================== *)

Section CellClaims.
Context {F : Type} `{Float64 F}.

(** C10. The elevation of a cell, as the depth is computed from it, is
    the elevation of the first coverage row of that cell: one of the
    rows' values, and the common value when all the rows of the cell
    agree. *)
Theorem elevation_of_first_row (z_w : list (coverage_row F))
    (merged_polys : list (barycentric_row F)) (r : cell_row F) :
  In r (z_w_with_depth z_w merged_polys) ->
  (exists row rest,
      List.filter (fun x => (cell x =? c_cell r)%Z) z_w = row :: rest
      /\ c_elevation r = Some (elevation row))
  /\ (exists row, In row z_w /\ cell row = c_cell r
                  /\ c_elevation r = Some (elevation row))
  /\ (forall e : F,
        (forall row, In row z_w -> cell row = c_cell r -> elevation row = e) ->
        c_elevation r = Some e).
Proof.
  intros Hin. apply z_w_with_depth_In in Hin as (c & w & e & Hj & _ & ->).
  apply z_w_joined_In in Hj as (Hc & _ & ->). cbn [c_cell c_elevation].
  destruct (first_elevation_some z_w c Hc) as (row & rest & Hf & He).
  assert (Hrow : In row z_w /\ cell row = c).
  { assert (Hin : In row (List.filter (fun x => (cell x =? c)%Z) z_w))
      by (rewrite Hf; now left).
    apply List.filter_In in Hin as [Hin Heq]. split; [assumption|].
    now apply Z.eqb_eq. }
  destruct Hrow as [Hin Hcell].
  split; [exists row, rest; auto|].
  split; [exists row; auto|].
  intros e0 Hall. rewrite He. f_equal. now apply Hall.
Qed.

End CellClaims.

Lemma elevation_of_first_row_witness :
  let r := CellRow 2 (Some 15%float) (Some 4%float) (Some 11%float) in
  In r (z_w_with_depth (F := float) coverage_table element_table)
  /\ exists row,
       In row (coverage_table (F := float)) /\ cell row = c_cell r
       /\ c_elevation r = Some (elevation row).
Proof.
  cbv zeta.
  assert (Hin : In (CellRow 2 (Some 15%float) (Some 4%float) (Some 11%float))
                   (z_w_with_depth (F := float) coverage_table element_table))
    by (vm_compute; right; left; reflexivity).
  split; [exact Hin|].
  exact (proj1 (proj2 (elevation_of_first_row coverage_table element_table _ Hin))).
Defined.

(** C7.  A cell whose average is NaN (its element has a NaN water surface
    elevation) over ground at 3 has the depth NaN, and DuckDB, for which a
    NaN is above every number, lets it through the filter [depth >= 0]:
    the table [depth] holds a row of depth NaN.  In [make_depth_raster],
    with -1 declared as the no-data value of the water surface raster and
    -9999 as that of the terrain, a terrain pixel at -9999 under water at
    7 is not masked: only the first raster's no-data value is looked
    for, and the pixel reads 10006. *)
Theorem nan_depth_kept_and_dem_nodata_unmasked :
  depth_table (interpolate nan_coverage nan_elements 1 1 false)
    = [CellRow 1 (Some nan) (Some 3%float) (Some nan)]
  /\ make_depth_raster true [[7%float]] [[(-9999)%float]]
       (Some (-1)%float) (Some (-9999)%float) true
     = Some [[10006%float]].
Proof.
  split; vm_compute; reflexivity.
Qed.

Section ExactCellClaims.
Local Open Scope R_scope.

(** C5. In whatever arithmetic, a cell has a weighted average exactly
    when it has coverage rows, and the average is the quotient, in that
    arithmetic, of the two sums SQL takes over the rows of the cell joined
    with their elements: the sum of water surface elevation times coverage
    fraction over the sum of the coverage fractions.  In exact arithmetic,
    when those rows carry the finite pairs [rows] and the total coverage is
    not 0, that is the real quotient of the real sums; it is the element's
    own value when one element covers the cell with fraction 1, and the
    arithmetic mean of the two values when two elements cover it with
    equal fractions. *)
Theorem cell_wse_weighted_mean :
  (forall (F : Type) (A : Float64 F) (z_w : list (coverage_row F))
          (merged_polys : list (barycentric_row F)) (c : Z) (v : option F),
      In (c, v) (averaged z_w merged_polys) <->
      In c (map cell z_w)
      /\ v = null_lift2 fdiv
               (sql_sum (map (fun r => null_lift2 fmul (m_wse r)
                                         (Some (coverage_fraction (m_row r))))
                             (group c (join_wse z_w merged_polys))))
               (sql_sum (map (fun r => Some (coverage_fraction (m_row r)))
                             (group c (join_wse z_w merged_polys)))))
  /\ forall (z_w : list (coverage_row xreal))
            (merged_polys : list (barycentric_row xreal)) (c : Z)
            (rows : list (R * R)),
       map (fun r => (m_wse r, coverage_fraction (m_row r)))
           (group c (join_wse z_w merged_polys)) =
         map (fun p => (Some (Fin (fst p)), Fin (snd p))) rows ->
       rows <> [] ->
       Rsum (map snd rows) <> 0 ->
       (forall v : option xreal,
           In (c, v) (averaged z_w merged_polys) <->
           v = Some (Fin (Rsum (map (fun p => fst p * snd p) rows)
                          / Rsum (map snd rows))))
       /\ (forall wse : R,
             rows = [(wse, 1)] ->
             In (c, Some (Fin wse)) (averaged z_w merged_polys))
       /\ (forall wse1 wse2 f : R,
             rows = [(wse1, f); (wse2, f)] ->
             In (c, Some (Fin ((wse1 + wse2) / 2))) (averaged z_w merged_polys)).
Proof.
  split; [intros F A z_w merged_polys c v; apply averaged_In|].
  intros z_w merged_polys c rows Hrows Hne Hsum.
  pose proof (cell_average_fin _ c rows Hrows Hne Hsum) as Havg.
  assert (Hc : In c (map cell z_w)).
  { apply (join_wse_cells z_w merged_polys).
    destruct rows as [|p t]; [congruence|].
    destruct (group c (join_wse z_w merged_polys)) as [|r g] eqn:Hg;
      [discriminate|].
    assert (Hin : In r (group c (join_wse z_w merged_polys)))
      by (rewrite Hg; now left).
    apply List.filter_In in Hin as [Hin Heq]. apply Z.eqb_eq in Heq.
    rewrite <- Heq. now apply (List.in_map (fun r => cell (m_row r))). }
  assert (Hall : forall v : option xreal,
             In (c, v) (averaged z_w merged_polys) <->
             v = Some (Fin (Rsum (map (fun p => fst p * snd p) rows)
                            / Rsum (map snd rows)))).
  { intros v. rewrite averaged_In, Havg. tauto. }
  split; [exact Hall|]. split.
  - intros wse ->. apply Hall. cbn. apply (f_equal Some), (f_equal Fin). field.
  - intros wse1 wse2 f ->. apply Hall. cbn in *.
    apply (f_equal Some), (f_equal Fin). field. lra.
Qed.

Lemma cell_wse_weighted_mean_witness :
  In (2%Z, Some (Fin ((10 + 20) / 2)))
     (averaged coverage_table_exact element_table_exact).
Proof.
  refine (proj2 (proj2
    (proj2 cell_wse_weighted_mean coverage_table_exact element_table_exact 2%Z
       [(10, 1 / 2); (20, 1 / 2)] _ _ _)) 10 20 (1 / 2) _).
  - reflexivity.
  - discriminate.
  - cbn. lra.
  - reflexivity.
Defined.

End ExactCellClaims.

(** C5 on doubles.  Two elements with water at 1.1 and 2.3 and equal
    fractions 0.3 give the cell 1.7000000000000002, while the mean of the
    two, (1.1 + 2.3) / 2, is 1.7: each product and each sum is rounded.
    Two elements with water at 0.5 and equal fractions 2^-1074 give the
    cell 0, not 0.5: the products underflow to 0. *)
Lemma cell_average_not_the_mean_on_doubles :
  averaged rounding_coverage rounding_elements
    = [(1%Z, Some 0x1.b333333333334p+0%float)]
  /\ ((0x1.199999999999ap+0 + 0x1.2666666666666p+1) / 2)%float
     = 0x1.b333333333333p+0%float
  /\ averaged underflow_coverage underflow_elements = [(1%Z, Some 0%float)].
Proof.
  repeat split; vm_compute; reflexivity.
Qed.

(* ================================================================== *)
(** * The raster *)
(* ================================================================== *)

(** Line 130 raises on every call that reaches it: the expression is
    over tables of both connections. *)
Lemma execute_raises {F : Type} `{Float64 F} (z_w : list (coverage_row F))
    (merged_polys : list (barycentric_row F)) (width height : Z) :
  raster_array (interpolate z_w merged_polys width height true) = inl IbisError.
Proof. reflexivity. Qed.

(** C9. Whatever the tables and the grid, [interpolate] ends in an
    exception before any frame of backfilled cells exists: with
    [save_raster] in the [execute] of line 130, whose expression joins
    [cell_range_table] and [z_w], of [data_conn], with [merged_polys], of
    [out_data_conn]; without it at line 114, where [cell_range_table] was
    never bound.  So it is on the tables of two covered cells on a grid of
    four, where the query's table would be (1, 5), (2, 15), (3, 0),
    (4, 0). *)
Theorem backfilled_frame_never_executed :
  (forall (F : Type) (A : Float64 F) (z_w : list (coverage_row F))
          (merged_polys : list (barycentric_row F)) (width height : Z)
          (save_raster : bool),
      raster_array (interpolate z_w merged_polys width height save_raster)
      = inl (if save_raster then IbisError else UnboundLocalError))
  /\ raster_array (interpolate (F := float) coverage_table element_table 2 2 true)
     = inl IbisError
  /\ z_w_merged_with_missing (F := float) (2 * 2)
       (z_w_merged coverage_table element_table)
     = [(1%Z, 5%float); (2%Z, 15%float); (3%Z, 0%float); (4%Z, 0%float)].
Proof.
  split; [intros F A z_w merged_polys width height [|]; reflexivity|].
  split; [apply execute_raises|]. vm_compute. reflexivity.
Qed.

(** C6. The convention of the reference grid puts cell 1 of a grid of two
    rows and two columns at pixel (0, 0) and cell 4 at pixel (1, 1).  On
    water surface elevations 10, 20, 30, 40 for the cells 1, 2, 3, 4,
    [interpolate] writes no raster: line 130 raises.  The table of its
    query is (1, 10), (2, 20), (3, 30), (4, 40), and lines 132-139 make of
    that table the array [[20, 30], [40, 10]]: the pixel of cell 1 holds
    the value of cell 2, and the value of cell 1 is in the last pixel. *)
Theorem raster_not_written_and_one_cell_off :
  raster_array (interpolate (F := float) grid_coverage grid_elements 2 2 true)
    = inl IbisError
  /\ z_w_merged_with_missing (F := float) (2 * 2) (z_w_merged grid_coverage grid_elements)
     = [(1%Z, 10%float); (2%Z, 20%float); (3%Z, 30%float); (4%Z, 40%float)]
  /\ fill_raster (F := float) 2 2
       [(1%Z, 10%float); (2%Z, 20%float); (3%Z, 30%float); (4%Z, 40%float)]
     = Some [[20%float; 30%float]; [40%float; 10%float]]
  /\ (row_of_cell 2 1, col_of_cell 2 1) = (0, 0)%Z
  /\ (row_of_cell 2 4, col_of_cell 2 4) = (1, 1)%Z.
Proof.
  split; [apply execute_raises|].
  repeat split; vm_compute; reflexivity.
Qed.

(* ================================================================== *)
(** * More on the solver in exact arithmetic *)
(* ================================================================== *)

Section SolverProperties.
Local Open Scope R_scope.

(** ** Slopes *)

Lemma slope_magnitude_translate (p q t : vec3 R) :
  slope_magnitude (radd p t) (radd q t) = slope_magnitude p q.
Proof.
  unfold slope_magnitude, horizontal_distance.
  replace (rsub (radd q t) (radd p t)) with (rsub q p)
    by (unfold rsub, radd; cbn; f_equal; ring).
  replace (vz (radd q t) - vz (radd p t)) with (vz q - vz p) by (cbn; ring).
  reflexivity.
Qed.

Lemma mean_slope_translate (v n1 n2 t : vec3 R) :
  mean_slope (radd v t) (radd n1 t) (radd n2 t) = mean_slope v n1 n2.
Proof. unfold mean_slope. now rewrite !slope_magnitude_translate. Qed.

Lemma mean_slope_swap (v n1 n2 : vec3 R) : mean_slope v n2 n1 = mean_slope v n1 n2.
Proof. unfold mean_slope. lra. Qed.

(** The slope at a vertex does not depend on the order of its two
    neighbours, nor on where the three points lie: moving all of them by
    the same vector leaves it unchanged. *)
Theorem calculate_slope_symmetric_and_translation_free
    (vertex neighbor1 neighbor2 t : vec3 R) :
  calculate_slope (fin3 vertex) (fin3 neighbor2) (fin3 neighbor1) =
    calculate_slope (fin3 vertex) (fin3 neighbor1) (fin3 neighbor2)
  /\ calculate_slope (fin3 (radd vertex t)) (fin3 (radd neighbor1 t))
                     (fin3 (radd neighbor2 t)) =
     calculate_slope (fin3 vertex) (fin3 neighbor1) (fin3 neighbor2).
Proof.
  rewrite !calculate_slope_fin. split; f_equal.
  - apply mean_slope_swap.
  - apply mean_slope_translate.
Qed.

(** ** Slope weights *)

Lemma slope_weights_R_sum (sA sB sC : R) :
  sA + sB + sC <> 0 -> triple_sum (slope_weights_R sA sB sC) = 1.
Proof.
  intros Ht. unfold slope_weights_R, triple_sum.
  destruct (Req_dec_T (sA + sB + sC) 0); [contradiction|]. cbn. now field.
Qed.

Lemma slope_weights_R_nonneg (sA sB sC : R) :
  0 <= sA -> 0 <= sB -> 0 <= sC ->
  0 <= fst (fst (slope_weights_R sA sB sC))
  /\ 0 <= snd (fst (slope_weights_R sA sB sC))
  /\ 0 <= snd (slope_weights_R sA sB sC).
Proof.
  intros HA HB HC. unfold slope_weights_R, flat_weight_R.
  destruct (Req_dec_T (sA + sB + sC) 0) as [Ht|Ht]; cbn; [lra|].
  assert (Hpos : 0 < sA + sB + sC) by lra.
  repeat split; apply Rmult_le_pos; try assumption;
    left; now apply Rinv_0_lt_compat.
Qed.

(** Lines 97-107 on slopes none of which is negative: the three slope
    weights are finite and not negative; they add up to 1 when some slope
    is not 0, and to 0.99999999999 when all are 0. *)
Theorem slope_weights_normalised (sA sB sC : R) :
  0 <= sA -> 0 <= sB -> 0 <= sC ->
  exists wA wB wC : R,
    slope_weights (Fin sA) (Fin sB) (Fin sC) = (Fin wA, Fin wB, Fin wC)
    /\ 0 <= wA /\ 0 <= wB /\ 0 <= wC
    /\ (sA + sB + sC <> 0 -> wA + wB + wC = 1)
    /\ (sA + sB + sC = 0 -> wA + wB + wC = 99999999999 / 100000000000).
Proof.
  intros HA HB HC. rewrite slope_weights_fin.
  pose proof (slope_weights_R_nonneg sA sB sC HA HB HC) as (H1 & H2 & H3).
  pose proof (slope_weights_R_sum sA sB sC) as Hsum.
  assert (Hflat : sA + sB + sC = 0 ->
                  triple_sum (slope_weights_R sA sB sC) = 99999999999 / 100000000000).
  { intros Hz. unfold slope_weights_R, triple_sum, flat_weight_R.
    destruct (Req_dec_T (sA + sB + sC) 0); [cbn; lra|contradiction]. }
  destruct (slope_weights_R sA sB sC) as [[wA wB] wC].
  exists wA, wB, wC. unfold triple_sum in *. cbn in *. auto 10.
Qed.

Lemma slope_weights_normalised_witness :
  exists wA wB wC : R,
    slope_weights (Fin 1) (Fin 2) (Fin 5) = (Fin wA, Fin wB, Fin wC)
    /\ 0 <= wA /\ 0 <= wB /\ 0 <= wC
    /\ (1 + 2 + 5 <> 0 -> wA + wB + wC = 1)
    /\ (1 + 2 + 5 = 0 -> wA + wB + wC = 99999999999 / 100000000000).
Proof.
  apply (slope_weights_normalised 1 2 5); lra.
Defined.

(** ** The area step *)

(** Around a point that is a combination of the vertices with weights
    adding up to 1, each sub-area is the weight of the opposite vertex. *)
Lemma cross_at_weighted_centroid (wA wB wC : R) (A B C : vec3 R) :
  wA + wB + wC = 1 ->
  let G := weighted_centroid (wA, wB, wC) A B C in
  rcross (rsub G B) (rsub G C) = rscale wA (triangle_normal A B C)
  /\ rcross (rsub G C) (rsub G A) = rscale wB (triangle_normal A B C)
  /\ rcross (rsub G A) (rsub G B) = rscale wC (triangle_normal A B C).
Proof.
  intros Hsum. assert (HC : wC = 1 - wA - wB) by lra. subst wC.
  unfold weighted_centroid, triangle_normal, rcross, rsub, radd, rscale.
  destruct A, B, C. cbn. repeat split; f_equal; ring.
Qed.

Lemma area_weights_R_convex (w : R * R * R) (A B C : vec3 R) :
  rnorm3 (triangle_normal A B C) <> 0 ->
  triple_sum w = 1 ->
  0 <= fst (fst w) -> 0 <= snd (fst w) -> 0 <= snd w ->
  area_weights_R w A B C = w.
Proof.
  intros Hnl Hsum HA HB HC. destruct w as [[wA wB] wC].
  unfold triple_sum in Hsum. cbn in Hsum, HA, HB, HC.
  destruct (cross_at_weighted_centroid wA wB wC A B C Hsum) as (EA & EB & EC).
  unfold area_weights_R, sub_area. cbv zeta in *.
  rewrite EA, EB, EC, !rnorm3_scale by assumption.
  set (nl := rnorm3 (triangle_normal A B C)) in *.
  replace (wA * nl / nl) with wA by (now field).
  replace (wB * nl / nl) with wB by (now field).
  replace (wC * nl / nl) with wC by (now field).
  rewrite Hsum. f_equal; [f_equal|]; field.
Qed.

Lemma weights_of_slopes (A B C : vec3 R) :
  rnorm3 (triangle_normal A B C) <> 0 ->
  total_slope_R A B C <> 0 ->
  calculate_barycentric_weights (fin3 A, fin3 B, fin3 C) =
  fin_triple (slope_weights_R (mean_slope A B C) (mean_slope B A C)
                              (mean_slope C A B)).
Proof.
  intros Hnl Ht. unfold total_slope_R, slopes_R, triple_sum in Ht. cbn in Ht.
  rewrite calculate_barycentric_weights_fin, area_weights_fin by exact Hnl.
  f_equal. apply area_weights_R_convex; [exact Hnl| | | |].
  - now apply slope_weights_R_sum.
  - apply slope_weights_R_nonneg; apply mean_slope_nonneg.
  - apply slope_weights_R_nonneg; apply mean_slope_nonneg.
  - apply slope_weights_R_nonneg; apply mean_slope_nonneg.
Qed.

(** On a triangle of positive area whose slopes are not all 0 the area
    step changes nothing: the weights returned are the slopes over their
    sum. *)
Theorem weights_are_normalised_slopes (A B C : vec3 R) :
  0 < triangle_area A B C ->
  total_slope_R A B C <> 0 ->
  calculate_barycentric_weights (fin3 A, fin3 B, fin3 C) =
  (Fin (mean_slope A B C / total_slope_R A B C),
   Fin (mean_slope B A C / total_slope_R A B C),
   Fin (mean_slope C A B / total_slope_R A B C)).
Proof.
  intros Harea Ht.
  rewrite weights_of_slopes; [|unfold triangle_area in Harea; lra|exact Ht].
  unfold total_slope_R, slopes_R, triple_sum in *. cbn in Ht |- *.
  unfold slope_weights_R. destruct (Req_dec_T _ 0); [contradiction|reflexivity].
Qed.

Lemma sloped_triangle_total_slope :
  total_slope_R (V3 0 0 0) (V3 1 0 0) (V3 0 1 10) <> 0.
Proof.
  assert (H10 : slope_magnitude (V3 0 0 0) (V3 0 1 10) = 10).
  { unfold slope_magnitude, horizontal_distance, rnorm2, rsub. cbn.
    replace ((0 - 0) * (0 - 0) + (1 - 0) * (1 - 0)) with 1 by ring.
    rewrite sqrt_1. destruct (Req_dec_T 1 0); [lra|].
    replace ((10 - 0) / 1) with 10 by field. apply Rabs_pos_eq. lra. }
  unfold total_slope_R, slopes_R, triple_sum. cbn [fst snd].
  pose proof (mean_slope_nonneg (V3 1 0 0) (V3 0 0 0) (V3 0 1 10)).
  pose proof (mean_slope_nonneg (V3 0 1 10) (V3 0 0 0) (V3 1 0 0)).
  pose proof (slope_magnitude_nonneg (V3 0 0 0) (V3 1 0 0)).
  unfold mean_slope at 1. rewrite H10. lra.
Qed.

Lemma weights_are_normalised_slopes_witness :
  let A := V3 0 0 0 in let B := V3 1 0 0 in let C := V3 0 1 10 in
  calculate_barycentric_weights (F := xreal) sloped_triangle =
  (Fin (mean_slope A B C / total_slope_R A B C),
   Fin (mean_slope B A C / total_slope_R A B C),
   Fin (mean_slope C A B / total_slope_R A B C)).
Proof.
  exact (weights_are_normalised_slopes (V3 0 0 0) (V3 1 0 0) (V3 0 1 10)
           sloped_triangle_area sloped_triangle_total_slope).
Defined.

(** ** Moving the triangle *)

Lemma triangle_normal_translate (A B C t : vec3 R) :
  triangle_normal (radd A t) (radd B t) (radd C t) = triangle_normal A B C.
Proof.
  unfold triangle_normal.
  replace (rsub (radd B t) (radd A t)) with (rsub B A)
    by (unfold rsub, radd; cbn; f_equal; ring).
  replace (rsub (radd C t) (radd A t)) with (rsub C A)
    by (unfold rsub, radd; cbn; f_equal; ring).
  reflexivity.
Qed.

(** When the slopes are not all 0 the weights do not depend on where the
    triangle lies: moving its three vertices by the same vector leaves
    them unchanged (also when they are undefined). *)
Theorem weights_translation_free (A B C t : vec3 R) :
  total_slope_R A B C <> 0 ->
  calculate_barycentric_weights (fin3 (radd A t), fin3 (radd B t), fin3 (radd C t)) =
  calculate_barycentric_weights (fin3 A, fin3 B, fin3 C).
Proof.
  intros Ht.
  destruct (Req_dec_T (rnorm3 (triangle_normal A B C)) 0) as [Hz|Hnl].
  - rewrite !calculate_barycentric_weights_fin.
    rewrite !area_weights_collinear; [reflexivity|exact Hz|].
    now rewrite triangle_normal_translate.
  - assert (Hnl' : rnorm3 (triangle_normal (radd A t) (radd B t) (radd C t)) <> 0)
      by (now rewrite triangle_normal_translate).
    assert (Ht' : total_slope_R (radd A t) (radd B t) (radd C t) <> 0)
      by (unfold total_slope_R, slopes_R; now rewrite !mean_slope_translate).
    rewrite (weights_of_slopes _ _ _ Hnl' Ht'), (weights_of_slopes _ _ _ Hnl Ht).
    now rewrite !mean_slope_translate.
Qed.

Lemma weights_translation_free_witness :
  calculate_barycentric_weights
    (fin3 (radd (V3 0 0 0) (V3 7 (-3) 2)), fin3 (radd (V3 1 0 0) (V3 7 (-3) 2)),
     fin3 (radd (V3 0 1 10) (V3 7 (-3) 2))) =
  calculate_barycentric_weights (F := xreal) sloped_triangle.
Proof.
  exact (weights_translation_free (V3 0 0 0) (V3 1 0 0) (V3 0 1 10) (V3 7 (-3) 2)
           sloped_triangle_total_slope).
Defined.

(** ** The order of the vertices *)

Lemma slope_weights_R_swap12 (sA sB sC : R) :
  slope_weights_R sB sA sC = swap12 (slope_weights_R sA sB sC).
Proof.
  unfold slope_weights_R. replace (sB + sA + sC) with (sA + sB + sC) by ring.
  destruct (Req_dec_T (sA + sB + sC) 0); reflexivity.
Qed.

Lemma slope_weights_R_swap23 (sA sB sC : R) :
  slope_weights_R sA sC sB = swap23 (slope_weights_R sA sB sC).
Proof.
  unfold slope_weights_R. replace (sA + sC + sB) with (sA + sB + sC) by ring.
  destruct (Req_dec_T (sA + sB + sC) 0); reflexivity.
Qed.

Lemma sub_area_swap (G P Q : vec3 R) (nl : R) :
  sub_area G Q P nl = sub_area G P Q nl.
Proof.
  unfold sub_area, rnorm3, rcross. cbn. do 2 f_equal. ring.
Qed.

Lemma normal_length_swap12 (A B C : vec3 R) :
  rnorm3 (triangle_normal B A C) = rnorm3 (triangle_normal A B C).
Proof.
  unfold triangle_normal, rnorm3, rcross, rsub. cbn. f_equal. ring.
Qed.

Lemma normal_length_swap23 (A B C : vec3 R) :
  rnorm3 (triangle_normal A C B) = rnorm3 (triangle_normal A B C).
Proof.
  unfold triangle_normal, rnorm3, rcross, rsub. cbn. f_equal. ring.
Qed.

Lemma area_weights_R_swap12 (w : R * R * R) (A B C : vec3 R) :
  area_weights_R (swap12 w) B A C = swap12 (area_weights_R w A B C).
Proof.
  destruct w as [[wA wB] wC]. unfold area_weights_R, swap12. cbv zeta.
  rewrite normal_length_swap12.
  replace (weighted_centroid (wB, wA, wC) B A C)
    with (weighted_centroid (wA, wB, wC) A B C)
    by (unfold weighted_centroid, radd, rscale; cbn; f_equal; ring).
  set (G := weighted_centroid (wA, wB, wC) A B C).
  set (nl := rnorm3 (triangle_normal A B C)).
  rewrite (sub_area_swap G C A), (sub_area_swap G B C), (sub_area_swap G A B).
  replace (sub_area G C A nl + sub_area G B C nl + sub_area G A B nl)
    with (sub_area G B C nl + sub_area G C A nl + sub_area G A B nl) by ring.
  reflexivity.
Qed.

Lemma area_weights_R_swap23 (w : R * R * R) (A B C : vec3 R) :
  area_weights_R (swap23 w) A C B = swap23 (area_weights_R w A B C).
Proof.
  destruct w as [[wA wB] wC]. unfold area_weights_R, swap23. cbv zeta.
  rewrite normal_length_swap23.
  replace (weighted_centroid (wA, wC, wB) A C B)
    with (weighted_centroid (wA, wB, wC) A B C)
    by (unfold weighted_centroid, radd, rscale; cbn; f_equal; ring).
  set (G := weighted_centroid (wA, wB, wC) A B C).
  set (nl := rnorm3 (triangle_normal A B C)).
  rewrite (sub_area_swap G B C), (sub_area_swap G A B), (sub_area_swap G C A).
  replace (sub_area G B C nl + sub_area G A B nl + sub_area G C A nl)
    with (sub_area G B C nl + sub_area G C A nl + sub_area G A B nl) by ring.
  reflexivity.
Qed.

Lemma area_weights_swap12 (w : R * R * R) (A B C : vec3 R) :
  area_weights (fin_triple (swap12 w)) (fin3 B) (fin3 A) (fin3 C) =
  swap12 (area_weights (fin_triple w) (fin3 A) (fin3 B) (fin3 C)).
Proof.
  destruct (Req_dec_T (rnorm3 (triangle_normal A B C)) 0) as [Hz|Hnl].
  - rewrite !area_weights_collinear; [reflexivity|exact Hz|].
    now rewrite normal_length_swap12.
  - rewrite !area_weights_fin; [|exact Hnl|now rewrite normal_length_swap12].
    rewrite area_weights_R_swap12.
    now destruct (area_weights_R w A B C) as [[a b] c].
Qed.

Lemma area_weights_swap23 (w : R * R * R) (A B C : vec3 R) :
  area_weights (fin_triple (swap23 w)) (fin3 A) (fin3 C) (fin3 B) =
  swap23 (area_weights (fin_triple w) (fin3 A) (fin3 B) (fin3 C)).
Proof.
  destruct (Req_dec_T (rnorm3 (triangle_normal A B C)) 0) as [Hz|Hnl].
  - rewrite !area_weights_collinear; [reflexivity|exact Hz|].
    now rewrite normal_length_swap23.
  - rewrite !area_weights_fin; [|exact Hnl|now rewrite normal_length_swap23].
    rewrite area_weights_R_swap23.
    now destruct (area_weights_R w A B C) as [[a b] c].
Qed.

(** The weights follow the vertices: listing the vertices of a triangle in
    another order gives the same weights in that order, on every triangle
    (flat, collinear or neither). *)
Theorem weights_follow_vertex_order (A B C : vec3 R) :
  calculate_barycentric_weights (fin3 B, fin3 A, fin3 C) =
    swap12 (calculate_barycentric_weights (fin3 A, fin3 B, fin3 C))
  /\ calculate_barycentric_weights (fin3 A, fin3 C, fin3 B) =
    swap23 (calculate_barycentric_weights (fin3 A, fin3 B, fin3 C)).
Proof.
  rewrite !calculate_barycentric_weights_fin. split.
  - rewrite (mean_slope_swap C A B), slope_weights_R_swap12.
    apply area_weights_swap12.
  - rewrite (mean_slope_swap A B C), slope_weights_R_swap23.
    apply area_weights_swap23.
Qed.

End SolverProperties.

(* ================================================================== *)
(** * More on the mesh weight pipeline and the node tables *)
(* ================================================================== *)

Section PipelineProperties.
Context {F : Type} `{Float64 F}.

Lemma row_weights_resolves (dict : gmap Z (node_coords F)) (row : triangle_row) :
  row_weights dict row = None <-> resolves dict row = false.
Proof.
  unfold row_weights, resolves.
  destruct (dict !! node_id_1 row), (dict !! node_id_2 row),
    (dict !! node_id_3 row); split; intros; congruence.
Qed.

Lemma printed_filter (dict : gmap Z (node_coords F)) (rows : list triangle_row) :
  flat_map (fun row =>
      match row_weights dict row with
      | Some _ => []
      | None => [(pg_id row, [node_id_1 row; node_id_2 row; node_id_3 row])]
      end) rows =
  map (fun row => (pg_id row, [node_id_1 row; node_id_2 row; node_id_3 row]))
      (List.filter (fun row => negb (resolves dict row)) rows).
Proof.
  induction rows as [|row t IH]; [reflexivity|].
  change (flat_map ?f (row :: t)) with (f row ++ flat_map f t).
  rewrite IH. cbn [List.filter].
  destruct (resolves dict row) eqn:Hres; cbn [negb].
  - destruct (row_weights dict row) eqn:Hw; [reflexivity|].
    apply row_weights_resolves in Hw. congruence.
  - apply row_weights_resolves in Hres. now rewrite Hres.
Qed.

(** What the loop prints is the list of the elements that do not resolve,
    in the order of the table.  The three weight lists have their NULLs in
    the same places, and nothing is printed exactly when the lists hold no
    NULL. *)
Theorem printed_are_the_unresolved (node_coords_dict : gmap Z (node_coords F))
    (triangles_df : list triangle_row) :
  let out := compute_3d_barycentric node_coords_dict triangles_df in
  printed out =
    map (fun row => (pg_id row, [node_id_1 row; node_id_2 row; node_id_3 row]))
        (List.filter (fun row => negb (resolves node_coords_dict row)) triangles_df)
  /\ (forall i : nat,
        (w_A_list out !! i = Some None <-> w_B_list out !! i = Some None)
        /\ (w_A_list out !! i = Some None <-> w_C_list out !! i = Some None))
  /\ (printed out = [] <-> ~ In None (w_A_list out)).
Proof.
  cbv zeta. rewrite compute_3d_barycentric_eq.
  cbn [w_A_list w_B_list w_C_list printed]. rewrite printed_filter.
  split; [reflexivity|]. split.
  - intros i. rewrite !lookup_map.
    destruct (triangles_df !! i) as [row|]; cbn; [|split; split; discriminate].
    destruct (row_weights node_coords_dict row) as [[[a b] c]|]; cbn;
      split; split; congruence.
  - induction triangles_df as [|row t IH]; cbn; [tauto|].
    destruct (resolves node_coords_dict row) eqn:Hres; cbn.
    + destruct (row_weights node_coords_dict row) as [w|] eqn:Hw.
      * cbn. rewrite IH. split; [intros Hn [Hh|Ht]; [discriminate|tauto]|tauto].
      * apply row_weights_resolves in Hw. congruence.
    + apply row_weights_resolves in Hres. rewrite Hres. cbn.
      split; [discriminate|]. intros Hn. exfalso. apply Hn. now left.
Qed.

(** The loop treats each element on its own: the lists for a table made of
    two batches are the lists of the first batch followed by those of the
    second. *)
Theorem batches_concatenate (node_coords_dict : gmap Z (node_coords F))
    (batch1 batch2 : list triangle_row) :
  let out1 := compute_3d_barycentric node_coords_dict batch1 in
  let out2 := compute_3d_barycentric node_coords_dict batch2 in
  compute_3d_barycentric node_coords_dict (batch1 ++ batch2) =
  WeightLists (w_A_list out1 ++ w_A_list out2) (w_B_list out1 ++ w_B_list out2)
              (w_C_list out1 ++ w_C_list out2) (printed out1 ++ printed out2).
Proof.
  cbv zeta. rewrite !compute_3d_barycentric_eq.
  cbn [w_A_list w_B_list w_C_list printed].
  now rewrite !List.map_app, List.flat_map_app.
Qed.

(** ** [mask_nodes] *)

Lemma masked_node_ids_In (masked_elements : list triangle_row) (k : Z) :
  In k (masked_node_ids masked_elements) <->
  exists e, In e masked_elements
            /\ (k = node_id_1 e \/ k = node_id_2 e \/ k = node_id_3 e).
Proof.
  unfold masked_node_ids, sql_union.
  rewrite distinct_In, List.in_app_iff, distinct_In, List.in_app_iff,
    !List.in_map_iff.
  split.
  - intros [[(e & <- & He)|(e & <- & He)]|(e & <- & He)]; exists e; auto.
  - intros (e & He & [-> | [-> | ->]]); [left; left|left; right|right]; exists e; auto.
Qed.

Lemma existsb_eqb_In (k : Z) (ks : list Z) :
  List.existsb (Z.eqb k) ks = true <-> In k ks.
Proof.
  rewrite List.existsb_exists. split.
  - intros (x & Hx & Heq). apply Z.eqb_eq in Heq. now subst.
  - intros Hin. exists k. split; [assumption|apply Z.eqb_refl].
Qed.

End PipelineProperties.

(** [mask_nodes] keeps a row of the table exactly when its node id is one
    of the three node ids of some masked element. *)
Theorem mask_nodes_keeps_the_referenced {A : Type} (node_id : A -> Z)
    (table : list A) (masked_elements : list triangle_row) (n : A) :
  In n (mask_nodes node_id table masked_elements) <->
  In n table
  /\ exists e, In e masked_elements
               /\ (node_id n = node_id_1 e \/ node_id n = node_id_2 e
                   \/ node_id n = node_id_3 e).
Proof.
  unfold mask_nodes. rewrite List.filter_In, existsb_eqb_In, masked_node_ids_In.
  reflexivity.
Qed.

Section MaskedPipeline.
Context {F : Type} `{Float64 F}.

Lemma NoDup_map_filter {A : Type} (key : A -> Z) (P : A -> bool) (l : list A) :
  List.NoDup (map key l) -> List.NoDup (map key (List.filter P l)).
Proof.
  induction l as [|x t IH]; cbn; [auto|]. intros Hnd.
  inversion Hnd as [|? ? Hnotin Hnd']; subst.
  destruct (P x); cbn; [|now apply IH]. constructor; [|now apply IH].
  intros Hin. apply Hnotin. apply List.in_map_iff in Hin as (y & Heq & Hy).
  apply List.filter_In in Hy as [Hy _]. rewrite <- Heq. now apply List.in_map.
Qed.

Lemma flat_map_ext_in {A B : Type} (f g : A -> list B) (l : list A) :
  (forall a, In a l -> f a = g a) -> flat_map f l = flat_map g l.
Proof.
  induction l as [|a t IH]; [reflexivity|]. intros Hfg.
  change (flat_map ?h (a :: t)) with (h a ++ flat_map h t).
  rewrite (Hfg a) by now left. f_equal. apply IH. intros b Hb. apply Hfg. now right.
Qed.

(** Looking a key up in the dictionary of a filtered table. *)
Lemma lookup_filtered_dict (P : Z -> bool) (l : list (node_table_row F)) (k : Z) :
  (list_to_map (map node_entry (List.filter (fun r => P (nt_node_id r)) l))
     : gmap Z (node_coords F)) !! k =
  if P k then (list_to_map (map node_entry l) : gmap Z (node_coords F)) !! k
  else None.
Proof.
  induction l as [|r t IH]; cbn [List.filter map].
  - cbn. rewrite lookup_empty. now destruct (P k).
  - destruct (P (nt_node_id r)) eqn:HPr.
    + cbn [map]. unfold node_entry at 1 3. rewrite !list_to_map_cons.
      destruct (decide (k = nt_node_id r)) as [Heq|Hne].
      * subst k. rewrite !lookup_insert_eq. now rewrite HPr.
      * rewrite !lookup_insert_ne by congruence. apply IH.
    + rewrite IH. destruct (P k) eqn:HPk; [|reflexivity].
      unfold node_entry at 2. rewrite list_to_map_cons.
      rewrite lookup_insert_ne; [reflexivity|]. intros Heq. congruence.
Qed.

(** Masking the node table by the elements takes nothing away from the
    weights of those elements: when the weights can be computed from the
    whole node table, they can be computed from the masked one, and they
    are the same, as is what is printed. *)
Theorem masked_nodes_give_the_same_weights (nodes_df : list (node_table_row F))
    (masked_elements : list triangle_row) (out : weight_lists F) :
  compute_3d_barycentric_tables nodes_df masked_elements = Some out ->
  compute_3d_barycentric_tables
    (mask_nodes nt_node_id nodes_df masked_elements) masked_elements = Some out.
Proof.
  unfold compute_3d_barycentric_tables, to_dict_index.
  destruct (bool_decide (NoDup (map nt_node_id nodes_df))) eqn:Hnd; [|discriminate].
  intros [= <-]. apply bool_decide_eq_true in Hnd. apply NoDup_ListNoDup in Hnd.
  rewrite bool_decide_true
    by (apply NoDup_ListNoDup; unfold mask_nodes; now apply NoDup_map_filter).
  f_equal. rewrite !compute_3d_barycentric_eq.
  set (d := list_to_map (map node_entry nodes_df) : gmap Z (node_coords F)).
  set (d' := list_to_map (map node_entry
                 (mask_nodes nt_node_id nodes_df masked_elements))
             : gmap Z (node_coords F)).
  assert (Hrow : forall row, In row masked_elements ->
                             row_weights d' row = row_weights d row).
  { intros row Hin. unfold row_weights, d', mask_nodes.
    rewrite !(lookup_filtered_dict
                (fun k => List.existsb (Z.eqb k) (masked_node_ids masked_elements))).
    fold d.
    rewrite !(proj2 (existsb_eqb_In _ _)); [reflexivity| | |];
      apply masked_node_ids_In; exists row; auto. }
  f_equal.
  - apply List.map_ext_in. intros row Hin. now rewrite Hrow.
  - apply List.map_ext_in. intros row Hin. now rewrite Hrow.
  - apply List.map_ext_in. intros row Hin. now rewrite Hrow.
  - apply flat_map_ext_in. intros row Hin. now rewrite Hrow.
Qed.

End MaskedPipeline.

Lemma masked_nodes_give_the_same_weights_witness :
  exists out : weight_lists float,
    compute_3d_barycentric_tables node_table masked_elements_table = Some out
    /\ compute_3d_barycentric_tables
         (mask_nodes nt_node_id node_table masked_elements_table)
         masked_elements_table = Some out.
Proof.
  eexists. split.
  - vm_compute. reflexivity.
  - apply (masked_nodes_give_the_same_weights (F := float)).
    vm_compute. reflexivity.
Defined.

(* ================================================================== *)
(** * [add_elevation] *)
(* ================================================================== *)

Lemma left_join_In {A B C : Type} (on : A -> B -> bool)
    (row : A -> option B -> C) (l : list A) (r : list B) (c : C) :
  In c (left_join on row l r) <->
  exists a, In a l
    /\ ((exists b, In b r /\ on a b = true /\ c = row a (Some b))
        \/ ((forall b, In b r -> on a b = false) /\ c = row a None)).
Proof.
  unfold left_join. rewrite List.in_flat_map. split.
  - intros (a & Ha & Hc). exists a. split; [assumption|].
    destruct (List.filter (on a) r) as [|b0 bs] eqn:Hf.
    + right. destruct Hc as [<-|[]]. split; [|reflexivity].
      intros b Hb. destruct (on a b) eqn:Hon; [|reflexivity].
      assert (Hin : In b (List.filter (on a) r)) by (apply List.filter_In; auto).
      rewrite Hf in Hin. destruct Hin.
    + left. apply List.in_map_iff in Hc as (b & <- & Hb).
      rewrite <- Hf in Hb. apply List.filter_In in Hb as [Hb Hon].
      exists b. auto.
  - intros (a & Ha & [(b & Hb & Hon & ->)|(Hnone & ->)]); exists a;
      (split; [assumption|]).
    + assert (Hin : In b (List.filter (on a) r)) by (apply List.filter_In; auto).
      destruct (List.filter (on a) r) as [|b0 bs]; [destruct Hin|].
      apply List.in_map_iff. exists b. auto.
    + destruct (List.filter (on a) r) as [|b0 bs] eqn:Hf; [now left|].
      assert (Hin : In b0 (List.filter (on a) r)) by (rewrite Hf; now left).
      apply List.filter_In in Hin as [Hb Hon]. rewrite (Hnone b0 Hb) in Hon.
      discriminate.
Qed.

Lemma filter_map_comm {A B : Type} (f : A -> B) (P : B -> bool) (l : list A) :
  List.filter P (map f l) = map f (List.filter (fun a => P (f a)) l).
Proof.
  induction l as [|a t IH]; [reflexivity|]. cbn [map List.filter].
  destruct (P (f a)); cbn [map]; now rewrite IH.
Qed.

Section AddElevation.
Context {F : Type}.

(** Although the statement is a LEFT JOIN, its WHERE clause makes
    [add_elevation] an inner join: a row comes out exactly for a node and
    an elevation row of the same node id whose elevation is not NULL, so a
    node without an elevation row is dropped like one whose elevation is
    NULL. *)
Theorem add_elevation_is_an_inner_join (table : list (node_row F))
    (elevation_table : list (elevation_row F)) (r : node_elevation_row F) :
  In r (add_elevation table elevation_table) <->
  exists (n : node_row F) (e : elevation_row F) (v : F),
    In n table /\ In e elevation_table
    /\ n_node_id n = e_node_id e
    /\ e_elevation e = Some v
    /\ r = NodeElevationRow n (Some v).
Proof.
  unfold add_elevation. rewrite List.filter_In, left_join_In. split.
  - intros [(n & Hn & [(e & He & Hon & ->)|(_ & ->)]) Hnn]; cbn in Hnn;
      [|discriminate].
    destruct (e_elevation e) as [v|] eqn:Hv; [|discriminate].
    exists n, e, v. apply Z.eqb_eq in Hon. cbn. rewrite Hv. auto.
  - intros (n & e & v & Hn & He & Hid & Hv & ->). split; [|reflexivity].
    exists n. split; [assumption|]. left. exists e.
    split; [assumption|]. split; [now apply Z.eqb_eq|]. cbn. now rewrite Hv.
Qed.

(** When no node id occurs twice in the elevation table, [add_elevation]
    neither repeats nor reorders a node: the nodes of its rows are the
    nodes of the table whose elevation row has an elevation, each with
    that elevation, and node ids that were unique stay unique. *)
Theorem add_elevation_keeps_nodes_unique (table : list (node_row F))
    (elevation_table : list (elevation_row F)) :
  List.NoDup (map e_node_id elevation_table) ->
  let elevation_of (n : node_row F) :=
    List.find (fun e => (n_node_id n =? e_node_id e)%Z) elevation_table
      ≫= e_elevation in
  add_elevation table elevation_table =
    map (fun n => NodeElevationRow n (elevation_of n))
        (List.filter (fun n => is_not_null (elevation_of n)) table)
  /\ (List.NoDup (map n_node_id table) ->
      List.NoDup (map (fun r => n_node_id (ne_node r))
                      (add_elevation table elevation_table))).
Proof.
  intros Hnd elevation_of.
  assert (Heq : add_elevation table elevation_table =
                map (fun n => NodeElevationRow n (elevation_of n))
                    (List.filter (fun n => is_not_null (elevation_of n)) table)).
  { unfold add_elevation.
    rewrite (left_join_unique n_node_id e_node_id) by exact Hnd.
    apply (filter_map_comm (fun n => NodeElevationRow n (elevation_of n))). }
  split; [exact Heq|].
  intros Hnodes. rewrite Heq, List.map_map. cbn [ne_node].
  now apply NoDup_map_filter.
Qed.

End AddElevation.

Lemma add_elevation_keeps_nodes_unique_witness :
  add_elevation (F := float) wse_node_table sampled_elevations =
    [NodeElevationRow (NodeRow 1 0%float 0%float (Some 5%float)) (Some 3%float)]
  /\ List.NoDup (map (fun r => n_node_id (ne_node r))
                     (add_elevation (F := float) wse_node_table sampled_elevations)).
Proof.
  destruct (add_elevation_keeps_nodes_unique (F := float)
              wse_node_table sampled_elevations) as [Heq Hnd].
  - cbn. repeat constructor; cbn; intuition lia.
  - split.
    + rewrite Heq. vm_compute. reflexivity.
    + apply Hnd. cbn. repeat constructor; cbn; intuition lia.
Defined.

(* ================================================================== *)
(** * More on the cell aggregation *)
(* ================================================================== *)

Section CellProperties.
Context {F : Type} `{Float64 F}.

(** The table [depth] has at most one row for a cell, and only cells of
    the coverage table have one. *)
Theorem depth_table_keyed_by_cell (z_w : list (coverage_row F))
    (merged_polys : list (barycentric_row F)) (width height : Z)
    (save_raster : bool) :
  let depth_rows :=
    depth_table (interpolate z_w merged_polys width height save_raster) in
  List.NoDup (map c_cell depth_rows)
  /\ forall r, In r depth_rows -> In (c_cell r) (map cell z_w).
Proof.
  cbv zeta. cbn [interpolate depth_table]. unfold filtered_z_w. split.
  - unfold z_w_with_depth. rewrite filter_map_comm, List.map_map.
    cbn [c_cell]. apply NoDup_map_filter, z_w_merged_keys.
  - intros r Hr. apply List.filter_In in Hr as [Hr _].
    apply z_w_with_depth_In in Hr as (c & w & e & Hin & _ & ->).
    apply z_w_joined_In in Hin as [Hc _]. exact Hc.
Qed.

End CellProperties.

Section ExactCellProperties.
Local Open Scope R_scope.

Lemma weighted_sum_bounds (lo hi : R) (rows : list (R * R)) :
  Forall (fun p => lo <= fst p <= hi /\ 0 < snd p) rows ->
  0 <= Rsum (map snd rows)
  /\ lo * Rsum (map snd rows) <= Rsum (map (fun p => fst p * snd p) rows)
  /\ Rsum (map (fun p => fst p * snd p) rows) <= hi * Rsum (map snd rows).
Proof.
  unfold Rsum. induction 1 as [|[w f] t [Hw Hf] _ (IH0 & IH1 & IH2)]; cbn in *.
  - lra.
  - repeat split; nra.
Qed.

(** In exact arithmetic the average of a cell lies between the least and
    the greatest water surface elevation of the elements that cover it,
    when each of them has one and a positive coverage fraction. *)
Theorem cell_average_within_range (z_w : list (coverage_row xreal))
    (merged_polys : list (barycentric_row xreal)) (c : Z)
    (rows : list (R * R)) (lo hi : R) :
  map (fun r => (m_wse r, coverage_fraction (m_row r)))
      (group c (join_wse z_w merged_polys)) =
    map (fun p => (Some (Fin (fst p)), Fin (snd p))) rows ->
  rows <> [] ->
  Forall (fun p => lo <= fst p <= hi /\ 0 < snd p) rows ->
  exists v : R,
    cell_average (join_wse z_w merged_polys) c = Some (Fin v)
    /\ lo <= v <= hi.
Proof.
  intros Hrows Hne Hall.
  destruct (weighted_sum_bounds lo hi rows Hall) as (H0 & Hlo & Hhi).
  assert (Hpos : 0 < Rsum (map snd rows)).
  { destruct rows as [|[w f] t]; [congruence|].
    inversion Hall as [|? ? [_ Hf] Ht]; subst.
    destruct (weighted_sum_bounds lo hi t Ht) as (Ht0 & _).
    unfold Rsum in *. cbn in *. lra. }
  eexists. split.
  - apply (cell_average_fin _ c rows Hrows Hne). lra.
  - set (N := Rsum (map (fun p => fst p * snd p) rows)) in *.
    set (D := Rsum (map snd rows)) in *.
    assert (HvD : N / D * D = N) by (field; lra).
    split.
    + apply (Rmult_le_reg_r D); [exact Hpos|]. lra.
    + apply (Rmult_le_reg_r D); [exact Hpos|]. lra.
Qed.

(** What a row contributes to the numerator: nothing when its element has
    no water surface elevation. *)
Lemma sql_sum_from_nullable (a : R) (rows : list (option R * R)) :
  sql_sum_from (Some (Fin a))
    (map (fun p => null_lift2 fmul (option_map Fin (fst p)) (Some (Fin (snd p))))
         rows) =
  Some (Fin (a + Rsum (map (fun p => match fst p with
                                     | Some w => w * snd p
                                     | None => 0
                                     end) rows))).
Proof.
  revert a. induction rows as [|[[w|] f] t IH]; intros a;
    cbn [map fst snd option_map null_lift2 sql_sum_from].
  - apply (f_equal Some), (f_equal Fin). unfold Rsum. cbn. lra.
  - change (fmul (Fin w) (Fin f)) with (Fin (w * f)).
    change (fadd (Fin a) (Fin (w * f))) with (Fin (a + w * f)).
    rewrite IH. apply (f_equal Some), (f_equal Fin). unfold Rsum. cbn. lra.
  - rewrite IH. apply (f_equal Some), (f_equal Fin). unfold Rsum. cbn. lra.
Qed.

Lemma sql_sum_nullable (rows : list (option R * R)) :
  sql_sum
    (map (fun p => null_lift2 fmul (option_map Fin (fst p)) (Some (Fin (snd p))))
         rows) =
  match List.filter (fun p => is_not_null (fst p)) rows with
  | [] => None
  | _ :: _ => Some (Fin (Rsum (map (fun p => match fst p with
                                              | Some w => w * snd p
                                              | None => 0
                                              end) rows)))
  end.
Proof.
  unfold sql_sum. induction rows as [|[[w|] f] t IH];
    cbn [map List.filter is_not_null fst snd option_map null_lift2 sql_sum_from].
  - reflexivity.
  - change (fmul (Fin w) (Fin f)) with (Fin (w * f)).
    rewrite sql_sum_from_nullable.
    apply (f_equal Some), (f_equal Fin). unfold Rsum. cbn. lra.
  - rewrite IH. destruct (List.filter _ t); [reflexivity|].
    apply (f_equal Some), (f_equal Fin). unfold Rsum. cbn. lra.
Qed.

(** An element without a water surface elevation is left out of the sum
    of the products but not of the sum of the coverage fractions: in exact
    arithmetic, as soon as one element of the cell has a water surface
    elevation, the average is the one the cell would have with 0 as the
    elevation of the others; when none has, the average is NULL. *)
Theorem null_wse_counts_as_zero (z_w : list (coverage_row xreal))
    (merged_polys : list (barycentric_row xreal)) (c : Z)
    (rows : list (option R * R)) :
  map (fun r => (m_wse r, coverage_fraction (m_row r)))
      (group c (join_wse z_w merged_polys)) =
    map (fun p => (option_map Fin (fst p), Fin (snd p))) rows ->
  Rsum (map snd rows) <> 0 ->
  cell_average (join_wse z_w merged_polys) c =
  match List.filter (fun p => is_not_null (fst p)) rows with
  | [] => None
  | _ :: _ =>
      Some (Fin (Rsum (map (fun p => match fst p with
                                     | Some w => w * snd p
                                     | None => 0
                                     end) rows)
                 / Rsum (map snd rows)))
  end.
Proof.
  intros Hrows Hsum. unfold cell_average, weighted_sum, coverage_sum.
  set (joined := join_wse z_w merged_polys) in *.
  assert (E1 : map (fun r : merged_row xreal =>
                      null_lift2 fmul (m_wse r) (Some (coverage_fraction (m_row r))))
                   (group c joined) =
               map (fun q : option xreal * xreal => null_lift2 fmul (fst q) (Some (snd q)))
                   (map (fun r => (m_wse r, coverage_fraction (m_row r)))
                        (group c joined)))
    by (now rewrite List.map_map).
  assert (E2 : map (fun r : merged_row xreal => Some (coverage_fraction (m_row r)))
                   (group c joined) =
               map (fun q : option xreal * xreal => Some (snd q))
                   (map (fun r => (m_wse r, coverage_fraction (m_row r)))
                        (group c joined)))
    by (now rewrite List.map_map).
  rewrite E1, E2, Hrows, !List.map_map. cbn [fst snd].
  rewrite sql_sum_nullable.
  destruct (List.filter (fun p => is_not_null (fst p)) rows) as [|p0 ps] eqn:Hf;
    [reflexivity|].
  assert (Hne : rows <> []) by (intros ->; discriminate).
  rewrite (sql_sum_fin snd rows Hne).
  cbn [null_lift2 fdiv exact]. now rewrite xdiv_fin.
Qed.

End ExactCellProperties.

Lemma cell_average_within_range_witness :
  exists v : R,
    cell_average (join_wse coverage_table_exact element_table_exact) 2
      = Some (Fin v)
    /\ (10 <= v <= 20)%R.
Proof.
  apply (cell_average_within_range coverage_table_exact element_table_exact 2
           [(10, 1 / 2); (20, 1 / 2)]%R 10 20).
  - reflexivity.
  - discriminate.
  - repeat constructor; cbn; lra.
Defined.

Lemma null_wse_counts_as_zero_witness :
  cell_average (join_wse coverage_table_exact element_table_partial_exact) 2
  = Some (Fin ((10 * (1 / 2) + (0 + 0)) / (1 / 2 + (1 / 2 + 0)))%R).
Proof.
  apply (null_wse_counts_as_zero coverage_table_exact
           element_table_partial_exact 2
           [(Some 10, 1 / 2); (None, 1 / 2)]%R).
  - reflexivity.
  - unfold Rsum. cbn. lra.
Defined.

(* ================================================================== *)
(** * The depth filter and the query of the missing cells *)
(* ================================================================== *)

Section DepthAndQuery.
Context {F : Type} `{Float64 F}.
Local Open Scope Z_scope.

(** The table [depth] holds a row for exactly the cells whose elevation
    is defined (not NULL, not NaN) and whose depth, the weighted average
    less the elevation, is at least 0 by the comparison of DuckDB, which a
    NaN passes.  [make_depth_raster] with [mask_negative] keeps the shape
    of the water surface raster and puts NaN in every pixel whose
    difference is at most 0, and in every pixel where a raster holds the
    no-data value looked for (that of the first raster if it declares one,
    else that of the second); any other pixel holds the difference. *)
Theorem depth_rows_kept_and_pixels_masked (z_w : list (coverage_row F))
    (merged_polys : list (barycentric_row F)) (width height : Z)
    (save_raster : bool) (wse_values dem_values : list (list F))
    (raster1_nodata raster2_nodata : option F) :
  (forall r : cell_row F,
      In r (depth_table (interpolate z_w merged_polys width height save_raster))
      <->
      exists c : Z,
        In c (map cell z_w)
        /\ is_defined (first_elevation z_w c) = true
        /\ r = CellRow c (cell_average (join_wse z_w merged_polys) c)
                       (first_elevation z_w c)
                       (null_lift2 fsub (cell_average (join_wse z_w merged_polys) c)
                                   (first_elevation z_w c))
        /\ exists d : F,
             depth r = Some d /\ sql_ge d (f_of_Z 0) = true)
  /\ (shape dem_values = shape wse_values ->
      exists out : list (list F),
        make_depth_raster true wse_values dem_values
                          raster1_nodata raster2_nodata true = Some out
        /\ shape out = shape wse_values
        /\ forall (i j : nat) (wse dem : F),
             pixel wse_values i j = Some wse ->
             pixel dem_values i j = Some dem ->
             exists v : F,
               pixel out i j = Some v
               /\ (fleb (fsub wse dem) (f_of_Z 0) = true -> v = fnan)
               /\ (forall nd : F,
                     effective_nodata raster1_nodata raster2_nodata = Some nd ->
                     feqb wse nd = true \/ feqb dem nd = true -> v = fnan)
               /\ (fleb (fsub wse dem) (f_of_Z 0) = false ->
                   (forall nd : F,
                      effective_nodata raster1_nodata raster2_nodata = Some nd ->
                      feqb wse nd = false /\ feqb dem nd = false) ->
                   v = fsub wse dem)).
Proof.
  split.
  - intros r. cbn [interpolate depth_table]. unfold filtered_z_w.
    rewrite List.filter_In, z_w_with_depth_In. split.
    + intros ((c & w & e & Hj & Hdef & ->) & Hd).
      apply z_w_joined_In in Hj as (Hc & -> & ->).
      exists c. repeat (split; [assumption || reflexivity|]).
      cbn [depth] in *.
      destruct (null_lift2 fsub _ _) as [d|]; [|discriminate].
      exists d. auto.
    + intros (c & Hc & Hdef & -> & d & Hd & Hge). split.
      * exists c, (cell_average (join_wse z_w merged_polys) c),
          (first_elevation z_w c).
        split; [|auto]. apply z_w_joined_In. auto.
      * cbn [depth] in *. now rewrite Hd.
  - intros Hshape. unfold make_depth_raster. cbn [negb].
    eexists. split; [reflexivity|]. split; [now apply array_map2_shape|].
    intros i j wse dem Hw Hd.
    exists (mask_pixel (effective_nodata raster1_nodata raster2_nodata) true wse dem).
    split; [exact (array_map2_pixel _ _ _ i j wse dem Hw Hd)|].
    unfold mask_pixel. cbn [andb].
    destruct (effective_nodata raster1_nodata raster2_nodata) as [nd|].
    + destruct (feqb wse nd) eqn:E1; [|destruct (feqb dem nd) eqn:E2]; cbn [orb].
      * repeat split.
        -- intros _. now destruct (fleb fnan (f_of_Z 0)).
        -- intros _ _ _. now destruct (fleb fnan (f_of_Z 0)).
        -- intros _ Hno. destruct (Hno nd eq_refl). congruence.
      * repeat split.
        -- intros _. now destruct (fleb fnan (f_of_Z 0)).
        -- intros _ _ _. now destruct (fleb fnan (f_of_Z 0)).
        -- intros _ Hno. destruct (Hno nd eq_refl). congruence.
      * repeat split.
        -- intros Hle. now rewrite Hle.
        -- intros nd' [= <-] [Hhit|Hhit]; congruence.
        -- intros Hle _. now rewrite Hle.
    + repeat split.
      * intros Hle. now rewrite Hle.
      * intros nd' Hnd. discriminate.
      * intros Hle _. now rewrite Hle.
Qed.


(** The table of the query of lines 114-127 has one row for each cell
    1..width*height, in order.  A cell the aggregation has a value for
    keeps that value; a cell the aggregation has no row for gets 0 (as
    does a cell whose value is NULL).  The array lines 132-139 make of that
    table is of the shape of the grid, and each of its pixels holds a
    value of the table. *)
Theorem query_backfills_missing_cells (z_w : list (coverage_row F))
    (merged_polys : list (barycentric_row F)) (width height : Z) :
  0 < width -> 0 < height ->
  let merged := z_w_merged z_w merged_polys in
  let df_complete := z_w_merged_with_missing (width * height) merged in
  map fst df_complete =
    map (fun i : nat => Z.of_nat i + 1) (seq 0 (Z.to_nat (width * height)))
  /\ (forall (c : Z) (v : F),
        In (c, v) df_complete ->
        (forall (w : F) (e : option F), In (c, Some w, e) merged -> v = w)
        /\ ((forall (w e : option F), ~ In (c, w, e) merged) -> v = f_of_Z 0)
        /\ (forall e : option F, In (c, None, e) merged -> v = f_of_Z 0))
  /\ exists a : list (list F),
       fill_raster width height df_complete = Some a
       /\ rectangular (Z.to_nat height) (Z.to_nat width) a
       /\ forall i j : nat,
            (i < Z.to_nat height)%nat -> (j < Z.to_nat width)%nat ->
            exists (c : Z) (v : F), In (c, v) df_complete /\ pixel a i j = Some v.
Proof.
  intros Hw Hh merged df_complete.
  assert (Hnd : List.NoDup (map (fun m : Z * option F * option F => fst (fst m))
                                merged))
    by apply z_w_merged_keys.
  assert (Heq := z_w_merged_with_missing_eq (width * height) merged Hnd).
  fold df_complete in Heq.
  assert (Hlen : Z.of_nat (length df_complete) = width * height).
  { rewrite Heq, List.length_map, List.length_seq. nia. }
  split; [|split].
  - rewrite Heq, List.map_map. reflexivity.
  - intros c v Hin. rewrite Heq in Hin.
    apply List.in_map_iff in Hin as (i & [= <- <-] & _).
    split; [|split].
    + intros w e Hm.
      rewrite (find_unique_key (fun m : Z * option F * option F => fst (fst m))
                 (Z.of_nat i + 1) merged (Z.of_nat i + 1, Some w, e) Hnd Hm eq_refl).
      reflexivity.
    + intros Habs.
      rewrite (find_absent_key (fun m : Z * option F * option F => fst (fst m)));
        [reflexivity|].
      intros [[c w] e] Hm Hc. cbn in Hc. subst c. exact (Habs w e Hm).
    + intros e Hm.
      rewrite (find_unique_key (fun m : Z * option F * option F => fst (fst m))
                 (Z.of_nat i + 1) merged (Z.of_nat i + 1, None, e) Hnd Hm eq_refl).
      reflexivity.
  - destruct (fill_raster_spec width height df_complete Hw Hh Hlen)
      as (a & Hfill & Hrect & Hpix).
    exists a. split; [assumption|]. split; [assumption|].
    intros i j Hi Hj.
    set (k := Z.to_nat ((Z.of_nat i * width + Z.of_nat j + 1) mod (width * height))).
    assert (Hn : 0 < width * height) by nia.
    pose proof (Z.mod_pos_bound (Z.of_nat i * width + Z.of_nat j + 1) _ Hn) as Hk.
    destruct (lookup_lt_is_Some_2 df_complete k) as [[c v] Hrow]; [unfold k; lia|].
    exists c, v. split.
    + apply list_elem_of_In. eapply list_elem_of_lookup_2, Hrow.
    + assert (Hval : map snd df_complete !! k = Some v)
        by (rewrite lookup_map, Hrow; reflexivity).
      specialize (Hpix k v Hval). unfold k in Hpix.
      rewrite Z2Nat.id, Zminus_mod_idemp_l in Hpix by lia.
      replace (Z.of_nat i * width + Z.of_nat j + 1 - 1)
        with (Z.of_nat i * width + Z.of_nat j) in Hpix by lia.
      rewrite (Z.mod_small (Z.of_nat i * width + Z.of_nat j)) in Hpix by nia.
      rewrite <- (Z.div_unique (Z.of_nat i * width + Z.of_nat j) width
                    (Z.of_nat i) (Z.of_nat j)) in Hpix by lia.
      rewrite <- (Z.mod_unique (Z.of_nat i * width + Z.of_nat j) width
                    (Z.of_nat i) (Z.of_nat j)) in Hpix by lia.
      now rewrite !Nat2Z.id in Hpix.
Qed.

End DepthAndQuery.

Lemma depth_rows_kept_and_pixels_masked_witness :
  shape (dem_raster (F := float)) = shape (wse_raster (F := float))
  /\ exists out : list (list float),
       make_depth_raster true wse_raster dem_raster None None true = Some out
       /\ shape out = shape (wse_raster (F := float)).
Proof.
  split; [reflexivity|].
  destruct (proj2 (depth_rows_kept_and_pixels_masked (F := float)
                     coverage_table element_table 2 2 true
                     wse_raster dem_raster None None) eq_refl)
    as (out & Hout & Hshape & _).
  exists out. split; [exact Hout|exact Hshape].
Defined.

Lemma query_backfills_missing_cells_witness :
  (0 < 2)%Z /\ (0 < 2)%Z /\
  map fst (z_w_merged_with_missing (F := float) (2 * 2)
             (z_w_merged coverage_table element_table)) = [1; 2; 3; 4]%Z
  /\ exists a : list (list float),
       fill_raster 2 2 (z_w_merged_with_missing (F := float) (2 * 2)
                          (z_w_merged coverage_table element_table)) = Some a
       /\ rectangular 2 2 a.
Proof.
  destruct (query_backfills_missing_cells (F := float) coverage_table element_table 2 2)
    as (Hcells & _ & a & Ha & Hrect & _); [lia|lia|].
  split; [lia|]. split; [lia|]. split; [exact Hcells|].
  exists a. split; [exact Ha|exact Hrect].
Defined.

(* ================================================================== *)
(** * From the cells to the depth raster *)
(* ================================================================== *)

Section DryPixels.
Local Open Scope R_scope.

Lemma lookup_seq_Some (s n i : nat) :
  (i < n)%nat -> seq s n !! i = Some (s + i)%nat.
Proof.
  revert s i. induction n as [|n IH]; intros s [|i] Hi; cbn; try lia.
  - f_equal. lia.
  - rewrite IH by lia. f_equal. lia.
Qed.

(** The table of the query of lines 114-127, made into an array by lines
    132-139 and handed to [make_depth_raster].  A pixel that receives the
    value of a cell without coverage rows holds the 0 of the backfill;
    over ground below 0 the depth raster then shows water of depth minus
    the elevation there, in exact arithmetic and for a no-data value, if
    any, that is neither 0 nor that elevation.  The pixel of cell [c]
    receives the value of cell [c mod (width * height) + 1]. *)
Theorem dry_pixel_below_datum_reads_wet (z_w : list (coverage_row xreal))
    (merged_polys : list (barycentric_row xreal)) (width height c : Z)
    (dem_values : list (list xreal)) (e : R)
    (raster1_nodata raster2_nodata : option xreal) :
  (0 < width)%Z -> (0 < height)%Z -> (1 <= c <= width * height)%Z ->
  ~ In (c mod (width * height) + 1)%Z (map cell z_w) ->
  pixel dem_values (Z.to_nat (row_of_cell width c))
        (Z.to_nat (col_of_cell width c)) = Some (Fin e) ->
  e < 0 ->
  (forall nd : R,
      effective_nodata raster1_nodata raster2_nodata = Some (Fin nd) ->
      nd <> 0 /\ nd <> e) ->
  exists wse_values depth_values : list (list xreal),
    fill_raster width height
      (z_w_merged_with_missing (width * height) (z_w_merged z_w merged_polys))
      = Some wse_values
    /\ make_depth_raster true wse_values dem_values
         raster1_nodata raster2_nodata true = Some depth_values
    /\ pixel depth_values (Z.to_nat (row_of_cell width c))
             (Z.to_nat (col_of_cell width c)) = Some (Fin (- e)).
Proof.
  intros Hw Hh Hc Hdry Hdem He Hnd.
  set (merged := z_w_merged z_w merged_polys).
  set (df_complete := z_w_merged_with_missing (width * height) merged).
  assert (Hkeys : List.NoDup (map (fun m : Z * option xreal * option xreal =>
                                     fst (fst m)) merged))
    by apply z_w_merged_keys.
  assert (Heq := z_w_merged_with_missing_eq (width * height) merged Hkeys).
  fold df_complete in Heq.
  assert (Hn : (0 < width * height)%Z) by nia.
  assert (Hlen : Z.of_nat (length df_complete) = (width * height)%Z).
  { rewrite Heq, List.length_map, List.length_seq. lia. }
  destruct (fill_raster_spec width height df_complete Hw Hh Hlen)
    as (a & Hfill & _ & Hpix).
  pose proof (Z.mod_pos_bound c _ Hn) as Hm.
  assert (Hv : map snd df_complete !! Z.to_nat (c mod (width * height))
               = Some (Fin 0)).
  { rewrite Heq, List.map_map, lookup_map, lookup_seq_Some by lia.
    cbn [option_map snd Nat.add]. rewrite Z2Nat.id by lia.
    rewrite (find_absent_key (fun m : Z * option xreal * option xreal =>
                                fst (fst m))); [reflexivity|].
    intros [[c' w] v] Hin Hc'. cbn in Hc'. subst c'. apply Hdry.
    apply z_w_merged_In in Hin as [Hin _].
    now apply z_w_joined_In in Hin as [Hin _]. }
  specialize (Hpix _ _ Hv).
  rewrite Z2Nat.id in Hpix by lia.
  rewrite Zminus_mod_idemp_l in Hpix.
  rewrite (Z.mod_small (c - 1)) in Hpix by lia.
  fold (row_of_cell width c) (col_of_cell width c) in Hpix.
  exists a, (array_map2
               (mask_pixel (effective_nodata raster1_nodata raster2_nodata) true)
               a dem_values).
  split; [exact Hfill|]. split; [reflexivity|].
  rewrite (array_map2_pixel _ _ _ _ _ _ _ Hpix Hdem).
  apply (f_equal Some). unfold mask_pixel.
  assert (Hdiff : fsub (Fin 0) (Fin e) = Fin (- e))
    by (cbn; f_equal; lra).
  rewrite Hdiff.
  assert (Hle : fleb (Fin (- e)) (f_of_Z 0) = false).
  { cbn. destruct (Rle_dec (- e) 0); [lra|reflexivity]. }
  destruct (effective_nodata raster1_nodata raster2_nodata) as [[nd|]|] eqn:End.
  - destruct (Hnd nd eq_refl) as [Hnd0 Hnde].
    assert (H1 : feqb (Fin 0) (Fin nd) = false)
      by (cbn; destruct (Req_dec_T 0 nd); [congruence|reflexivity]).
    assert (H2 : feqb (Fin e) (Fin nd) = false)
      by (cbn; destruct (Req_dec_T e nd); [congruence|reflexivity]).
    rewrite H1, H2. cbn [orb]. rewrite Hle. reflexivity.
  - cbn [feqb exact xeqb orb]. rewrite Hle. reflexivity.
  - rewrite Hle. reflexivity.
Qed.

End DryPixels.

Lemma dry_pixel_below_datum_reads_wet_witness :
  exists wse_values depth_values : list (list xreal),
    fill_raster 2 2
      (z_w_merged_with_missing (2 * 2)
         (z_w_merged coverage_table_exact element_table_exact))
      = Some wse_values
    /\ make_depth_raster true wse_values dem_below_datum None None true
       = Some depth_values
    /\ pixel depth_values (Z.to_nat (row_of_cell 2 2))
             (Z.to_nat (col_of_cell 2 2)) = Some (Fin (- (-2))%R).
Proof.
  apply (dry_pixel_below_datum_reads_wet coverage_table_exact
           element_table_exact 2 2 2 dem_below_datum (-2)%R None None).
  - lia.
  - lia.
  - lia.
  - vm_compute. intros [Hin|[Hin|[Hin|[]]]]; discriminate.
  - reflexivity.
  - lra.
  - intros nd Hnd. discriminate.
Defined.

(* ================================================================== *)
(** * Runs in binary64 *)
(* ================================================================== *)

(** The definitions evaluated on doubles, as the Python code would. *)

(** The literal of the flat branch. *)
Example flat_weight_binary64 :
  flat_weight (F := float) = 0x1.5555555546ac5p-2%float.
Proof. vm_compute. reflexivity. Qed.

(** A vertex whose first neighbour lies straight above it: that edge
    counts for 0, the other for |10 / 1|. *)
Example calculate_slope_zero_length_edge :
  calculate_slope (F := float) (pointZ 0 0 0) (pointZ 0 0 7) (pointZ 0 1 10)
  = 5%float.
Proof. vm_compute. reflexivity. Qed.

(** Elevations (0, 0, 10): the weight of the third vertex exceeds the
    other two, and the three add up to 1 within 1e-9. *)
Example sloped_triangle_binary64 :
  let '(w1, w2, w3) := calculate_barycentric_weights (F := float) sloped_triangle in
  (w1 <? w3)%float = true /\ (w2 <? w3)%float = true
  /\ (0 <=? w1)%float = true /\ (0 <=? w2)%float = true
  /\ (PrimFloat.abs (w1 + w2 + w3 - 1) <=? 0x1p-30)%float = true.
Proof. vm_compute. repeat split. Qed.

(** One element over cell 1 of a grid: water at 5 over ground at 3 is a
    depth of 2. *)
Example single_cell_depth :
  depth_table (interpolate (F := float)
                 [CoverageRow 7 1 1%float 3%float] [BarycentricRow 7 (Some 5%float)]
                 2 2 true)
  = [CellRow 1 (Some 5%float) (Some 3%float) (Some 2%float)].
Proof. vm_compute. reflexivity. Qed.

(** Two elements over cell 2 in equal halves: the mean of 10 and 20. *)
Example averaged_binary64 :
  averaged (F := float) coverage_table element_table
  = [(1%Z, Some 5%float); (2%Z, Some 15%float)].
Proof. vm_compute. reflexivity. Qed.

(** Differences 2, -2, 0 and -2: all but the first are masked. *)
Example make_depth_raster_binary64 :
  make_depth_raster (F := float) true wse_raster dem_raster None None true
  = Some [[2%float; nan]; [nan; nan]].
Proof. vm_compute. reflexivity. Qed.

(** Without [save_raster] there is no [cell_range_table] to read. *)
Example interpolate_without_raster :
  raster_array (interpolate (F := float) coverage_table element_table 2 2 false)
  = inl UnboundLocalError.
Proof. reflexivity. Qed.
